(** * Order-book replica, resynchronisation and fan-out

    A shallow embedding of [src/services/binanceCOB.js] (the consolidated
    order-book service) and of the symbol masquerade of
    [src/services/binanceWSC.js] (the kline concentrator), with the
    properties of the specification stated over them.

    Conventions of the embedding.
    - Sequence ids, timestamps and counters are JavaScript numbers that only
      ever hold integers: they are [Z].
    - Prices and quantities stay what the code has: decimal strings.  They
      are compared as strings where the code uses [===] on them and as
      numbers where the code converts them ([+qty], [parseFloat]).  A
      number read from a string is the double nearest to what is written.
    - Node runs every handler to completion on one thread.  A handler is a
      function on the service state; what the environment decides (which
      message arrives, whether a REST call succeeds, which timer fires, what
      the clock reads) is an explicit event.
    - A message on a socket is identified with the JSON value it encodes.

    Layout.  [JS], [Handler] and [WebSocket] hold what both services
    build on; [BinanceCOB] and [BinanceWSC] are the two services;
    [COBProperties] and [WSCProperties] define what the statements speak
    of and the runs they are tried on; [JSFacts], [HandlerFacts],
    [COBFacts] and [WSCFacts] hold the proofs.  The statements that
    settle the claims of the specification are the theorems whose comment
    starts with the number of the claim. *)

From Stdlib Require Import QArith Ascii String Lqa.
From stdpp Require Import gmap strings list fin_maps sorting.

Open Scope Z_scope.

(** ** JavaScript library functions used by the services *)

Module JS.

(** *** Numbers

    A JavaScript number is an IEEE 754 double: [NaN], an infinity, or a
    finite value, held here as the rational it denotes.  The two zeros are
    one: nothing the services do with a number ([===], [-], [>], the sign
    a comparator returns) tells [-0] from [0]. *)

Inductive Number :=
  | NaN
  | Infinity (negative : bool)
  | Finite (value : Q).

(** [⌊log2 (a / d)⌋] for positive [a] and [d]. *)
Definition floorLog2 (a d : Z) : Z :=
  let e := Z.log2 a - Z.log2 d in
  if a * 2 ^ Z.max 0 (- e) <? d * 2 ^ Z.max 0 e then e - 1 else e.

(** [n / d] rounded to the nearest integer, a tie to the even one. *)
Definition roundHalfEven (n d : Z) : Z :=
  let q := n / d in
  let r := 2 * (n mod d) in
  if r <? d then q
  else if d <? r then q + 1
  else if Z.even q then q else q + 1.

(** [m * 2 ^ t], in lowest terms. *)
Definition scaled (m t : Z) : Q :=
  Qred (if 0 <=? t then inject_Z (m * 2 ^ t) else m # Z.to_pos (2 ^ (- t))).

(** The double that stands for a real number: the nearest value
    [m * 2 ^ t] with [m < 2 ^ 53] and [-1074 <= t], a tie going to the even
    [m]; 53 significant bits where the number is large enough, steps of
    [2 ^ -1074] below [2 ^ -1022] (so that a number under [2 ^ -1075]
    becomes 0), and an infinity from [2 ^ 1024 - 2 ^ 970] on. *)
Definition double (q : Q) : Number :=
  let n := Qnum q in
  let d := Z.pos (Qden q) in
  if n =? 0 then Finite 0
  else
    let a := Z.abs n in
    let t := Z.max (floorLog2 a d - 52) (-1074) in
    let m := roundHalfEven (a * 2 ^ Z.max 0 (- t)) (d * 2 ^ Z.max 0 t) in
    if (971 <=? t) && (2 ^ 53 <=? m * 2 ^ (t - 971)) then Infinity (n <? 0)
    else Finite (scaled (if n <? 0 then - m else m) t).

(** [Number.MIN_VALUE], the smallest positive double. *)
Definition MIN_VALUE : Q := 1 # Z.to_pos (2 ^ 1074).

(** Every finite double is a multiple of the smallest positive one. *)
Definition onGrid (x : Number) : Prop :=
  match x with
  | Finite r => ∃ k, (r == inject_Z k * MIN_VALUE)%Q
  | _ => True
  end.

(** [x - y] *)
Definition numSub (x y : Number) : Number :=
  match x, y with
  | NaN, _ | _, NaN => NaN
  | Infinity s, Infinity s' => if Bool.eqb s s' then NaN else Infinity s
  | Infinity s, Finite _ => Infinity s
  | Finite _, Infinity s => Infinity (negb s)
  | Finite a, Finite b => double (a - b)
  end.

(** [x === 0] *)
Definition isZero (x : Number) : bool :=
  match x with
  | Finite v => Qeq_bool v 0
  | _ => false
  end.

(** [x > 0] *)
Definition isPositive (x : Number) : bool :=
  match x with
  | Finite v => negb (Qle_bool v 0)
  | Infinity negative => negb negative
  | NaN => false
  end.

(** *** Reading numbers from strings

    [StrWhiteSpaceChar] is taken among the ASCII characters: a string is a
    sequence of bytes here. *)

Definition isDigit (c : ascii) : bool :=
  let n := nat_of_ascii c in ((48 <=? n) && (n <=? 57))%nat.

Definition digitVal (c : ascii) : Z := Z.of_nat (nat_of_ascii c - 48).

Definition isSpace (c : ascii) : bool :=
  let n := nat_of_ascii c in ((n =? 32) || ((9 <=? n) && (n <=? 13)))%nat.

Fixpoint skipSpaces (s : string) : string :=
  match s with
  | String c s' => if isSpace c then skipSpaces s' else s
  | EmptyString => s
  end.

(** The longest run of digits at the start of [s]: the value accumulated
    onto [acc], how many digits were read, and the rest of the string. *)
Fixpoint readDigits (s : string) (acc : Z) (cnt : nat) : Z * nat * string :=
  match s with
  | String c s' =>
      if isDigit c then readDigits s' (10 * acc + digitVal c) (S cnt)
      else (acc, cnt, s)
  | EmptyString => (acc, cnt, s)
  end.

Definition readSign (s : string) : bool * string :=
  match s with
  | String c s' =>
      if (nat_of_ascii c =? 45)%nat then (true, s')
      else if (nat_of_ascii c =? 43)%nat then (false, s')
      else (false, s)
  | EmptyString => (false, s)
  end.

(** [e] or [E], an optional sign and at least one digit; anything else is
    not an exponent and is left unread. *)
Definition readExponent (s : string) : Z * string :=
  match s with
  | String c s' =>
      if ((nat_of_ascii c =? 101) || (nat_of_ascii c =? 69))%nat then
        let '(neg, s1) := readSign s' in
        let '(v, n, s2) := readDigits s1 0 0 in
        if (n =? 0)%nat then (0, s) else (if neg then - v else v, s2)
      else (0, s)
  | EmptyString => (0, s)
  end.

Definition pow10 (k : Z) : Q :=
  if 0 <=? k then inject_Z (10 ^ k) else 1 # Z.to_pos (10 ^ (- k)).

(** Digits with an optional fraction and an optional exponent, at least
    one digit before the exponent: the number written, exactly. *)
Definition readDecimal (s : string) : option (Q * string) :=
  let '(m1, n1, s1) := readDigits s 0 0 in
  let '(m2, n2, s2) :=
    match s1 with
    | String c s1' =>
        if (nat_of_ascii c =? 46)%nat then readDigits s1' m1 0 else (m1, 0%nat, s1)
    | EmptyString => (m1, 0%nat, s1)
    end in
  if (n1 + n2 =? 0)%nat then None
  else
    let '(ex, s3) := readExponent s2 in
    Some ((inject_Z m2 * pow10 (ex - Z.of_nat n2))%Q, s3).

(** What is left of [s] after the word, if [s] starts with it. *)
Fixpoint readWord (word s : string) : option string :=
  match word, s with
  | EmptyString, _ => Some s
  | String c word', String c' s' =>
      if Ascii.eqb c c' then readWord word' s' else None
  | String _ _, EmptyString => None
  end.

(** The longest [StrDecimalLiteral] at the start of [s]: a sign, then
    [Infinity] or a decimal number, which is rounded to a double. *)
Definition readNumber (s : string) : option (Number * string) :=
  let '(neg, s0) := readSign s in
  match readWord "Infinity" s0 with
  | Some rest => Some (Infinity neg, rest)
  | None =>
      match readDecimal s0 with
      | Some (v, rest) => Some (double (if neg then - v else v), rest)
      | None => None
      end
  end.

(** [parseFloat(s)]: the longest numeric prefix, what follows is ignored. *)
Definition parseFloat (s : string) : Number :=
  match readNumber (skipSpaces s) with
  | Some (v, _) => v
  | None => NaN
  end.

(** A digit of a [0x], [0o] or [0b] literal. *)
Definition radixDigit (radix : Z) (c : ascii) : option Z :=
  let n := Z.of_nat (nat_of_ascii c) in
  let v :=
    if (48 <=? n) && (n <=? 57) then n - 48
    else if (97 <=? n) && (n <=? 102) then n - 87
    else if (65 <=? n) && (n <=? 70) then n - 55
    else radix in
  if v <? radix then Some v else None.

Fixpoint readRadixDigits (radix : Z) (s : string) (acc : Z) (cnt : nat)
    : Z * nat * string :=
  match s with
  | String c s' =>
      match radixDigit radix c with
      | Some v => readRadixDigits radix s' (radix * acc + v) (S cnt)
      | None => (acc, cnt, s)
      end
  | EmptyString => (acc, cnt, s)
  end.

(** [0x], [0o] or [0b] in either case, then at least one digit. *)
Definition readNonDecimal (s : string) : option (Z * string) :=
  match s with
  | String c0 (String c1 s') =>
      let n := nat_of_ascii c1 in
      let radix :=
        if ((n =? 120) || (n =? 88))%nat then 16
        else if ((n =? 111) || (n =? 79))%nat then 8
        else if ((n =? 98) || (n =? 66))%nat then 2
        else 0 in
      if (nat_of_ascii c0 =? 48)%nat && negb (radix =? 0) then
        let '(v, cnt, rest) := readRadixDigits radix s' 0 0 in
        if (cnt =? 0)%nat then None else Some (v, rest)
      else None
  | _ => None
  end.

(** [+s], that is [Number(s)]: the whole string, white space at its ends
    apart, must be a number, decimal or in another base; the empty string
    is 0. *)
Definition toNumber (s : string) : Number :=
  match skipSpaces s with
  | EmptyString => Finite 0
  | t =>
      let read :=
        match readNonDecimal t with
        | Some (v, rest) => Some (double (inject_Z v), rest)
        | None => readNumber t
        end in
      match read with
      | Some (v, rest) =>
          match skipSpaces rest with
          | EmptyString => v
          | _ => NaN
          end
      | None => NaN
      end
  end.

(** [parseInt(s)]: a sign, then the digits at the start, in base 16 after
    [0x] and in base 10 otherwise; what follows is ignored.  The result is
    a whole number, which the services only compare and count with. *)
Definition parseInt (s : string) : option Z :=
  let '(neg, s0) := readSign (skipSpaces s) in
  let '(v, n, _) :=
    match s0 with
    | String c0 (String c1 s') =>
        if ((nat_of_ascii c0 =? 48) &&
            ((nat_of_ascii c1 =? 120) || (nat_of_ascii c1 =? 88)))%nat
        then readRadixDigits 16 s' 0 0
        else readDigits s0 0 0
    | _ => readDigits s0 0 0
    end in
  if (n =? 0)%nat then None else Some (if neg then - v else v).

(** *** Arrays *)

Section Arrays.
Context {A : Type}.

(** [arr.findIndex(P)]: the first index whose element satisfies [P],
    [-1] when there is none. *)
Fixpoint findIndexFrom (P : A → bool) (l : list A) (i : Z) : Z :=
  match l with
  | [] => -1
  | x :: l' => if P x then i else findIndexFrom P l' (i + 1)
  end.

Definition findIndex (P : A → bool) (l : list A) : Z := findIndexFrom P l 0.

(** [arr.splice(i, 1)] for an index [0 <= i]. *)
Definition splice1 (i : Z) (l : list A) : list A := delete (Z.to_nat i) l.

(** [arr.slice(0, n)]: a negative [n] counts from the end. *)
Definition slice0 (n : Z) (l : list A) : list A :=
  if 0 <=? n then take (Z.to_nat n) l
  else take (Z.to_nat (Z.max 0 (Z.of_nat (length l) + n))) l.

(** [arr.sort(cmp)].  The comparator returns a number; [x] is moved
    behind [y] exactly when [cmp(x, y) > 0] ([NaN] counts as 0).  The sort
    of V8 is stable, and for a consistent comparator every stable sort
    returns the list computed here by insertion.  For an inconsistent
    comparator (a [NaN] key) ECMAScript leaves the order to the
    implementation; no statement below depends on that case. *)
Definition comesAfter (cmp : A → A → Number) (x y : A) : bool :=
  isPositive (cmp x y).

Fixpoint insertSorted (cmp : A → A → Number) (x : A) (l : list A) : list A :=
  match l with
  | [] => [x]
  | y :: l' => if comesAfter cmp x y then y :: insertSorted cmp x l' else x :: l
  end.

Definition arraySort (cmp : A → A → Number) (l : list A) : list A :=
  foldr (insertSorted cmp) [] l.
End Arrays.

(** [s.toUpperCase()] on the ASCII letters. *)
Definition upperChar (c : ascii) : ascii :=
  let n := nat_of_ascii c in
  if ((97 <=? n) && (n <=? 122))%nat then ascii_of_nat (n - 32) else c.

Fixpoint toUpperCase (s : string) : string :=
  match s with
  | String c s' => String (upperChar c) (toUpperCase s')
  | EmptyString => EmptyString
  end.

End JS.

(** ** Handlers: state and exceptions

    A handler runs on the state of its service and either returns or
    throws; what it did to the state before throwing stays done. *)

Module Handler.

Inductive Outcome (A : Type) :=
  | Returns (x : A)
  | Throws (err : string).
Arguments Returns {A} x.
Arguments Throws {A} err.

Section Monad.
Context {S : Type}.

Definition M (A : Type) : Type := S → Outcome A * S.

Definition ret {A} (x : A) : M A := λ st, (Returns x, st).

Definition bind {A B} (m : M A) (k : A → M B) : M B := λ st,
  match m st with
  | (Returns x, st') => k x st'
  | (Throws err, st') => (Throws err, st')
  end.

Definition throw {A} (err : string) : M A := λ st, (Throws err, st).

(** [try { body } catch (err) { handler }] *)
Definition try_catch {A} (body : M A) (handler : string → M A) : M A := λ st,
  match body st with
  | (Returns x, st') => (Returns x, st')
  | (Throws err, st') => handler err st'
  end.

Definition get : M S := λ st, (Returns st, st).
Definition modify (f : S → S) : M unit := λ st, (Returns tt, f st).

(** [list.forEach(body)] *)
Fixpoint forEach {B} (l : list B) (body : B → M unit) : M unit :=
  match l with
  | [] => ret tt
  | x :: l' => bind (body x) (λ _, forEach l' body)
  end.

(** The state a handler leaves, and how it ended. *)
Definition exec {A} (m : M A) (st : S) : S := (m st).2.
Definition outcome {A} (m : M A) (st : S) : Outcome A := (m st).1.
End Monad.
Global Arguments M : clear implicits.

(** A relation on states that every run of a handler respects. *)
Definition preserves {S : Type} (R : relation S) {A : Type} (m : M S A) : Prop :=
  ∀ st, R st (m st).2.

Declare Scope handler_scope.
Delimit Scope handler_scope with handler.
Notation "x <- m ;; k" := (bind m (λ x, k))
  (at level 20, m at level 99, k at level 200, only parsing) : handler_scope.
Notation "m ;; k" := (bind m (λ _, k))
  (at level 100, k at level 200, only parsing, right associativity) : handler_scope.

End Handler.

(** ** The [ws] library: the states of a socket *)

Module WebSocket.

Inductive ReadyState := CONNECTING | OPEN | CLOSING | CLOSED.

Global Instance ReadyState_eq_dec : EqDecision ReadyState.
Proof. solve_decision. Defined.

End WebSocket.

(** ** The order-book service: [class BinanceCOB] *)

Module BinanceCOB.
Import JS Handler WebSocket.
Open Scope handler_scope.

(** *** The book replica *)

(** A price level [[price, qty]] as the exchange sends it. *)
Record Level := mkLevel { price : string; qty : string }.

(** [{ lastUpdateId, bids, asks }]: an entry of [this.orderBooks], and also
    the body of the REST depth response. *)
Record Book := mkBook {
  lastUpdateId : Z;
  bids : list Level;
  asks : list Level
}.

(** One iteration of [deltas.forEach(([price, qty]) => ...)] on a side. *)
Definition applyLevel (side : list Level) (d : Level) : list Level :=
  let index := findIndex (λ l, String.eqb (price l) (price d)) side in
  if isZero (toNumber (qty d)) then
    if -1 <? index then splice1 index side else side
  else if index =? -1 then side ++ [d]
  else alter (λ l, mkLevel (price l) (qty d)) (Z.to_nat index) side.

Definition bidOrder (x y : Level) : Number :=
  numSub (parseFloat (price y)) (parseFloat (price x)).

Definition askOrder (x y : Level) : Number :=
  numSub (parseFloat (price x)) (parseFloat (price y)).

(** [_applyDeltas(book, bids, asks)]: both sides are updated level by level
    and then sorted, bids descending and asks ascending. *)
Definition _applyDeltas (book : Book) (bidDeltas askDeltas : list Level) : Book :=
  {| lastUpdateId := lastUpdateId book;
     bids := arraySort bidOrder (foldl applyLevel (bids book) bidDeltas);
     asks := arraySort askOrder (foldl applyLevel (asks book) askDeltas) |}.

(** *** Messages and sockets *)

(** A [depthUpdate] event of the exchange stream, with all the fields the
    exchange documents. *)
Module DepthUpdate.
Record t := mk {
  e : string; E : Z; s : string;
  U : Z; u : Z;
  b : list Level; a : list Level
}.
End DepthUpdate.

(** An entry of [this.historicalData[symbol]]: [{ timestamp, lastUpdateId,
    bids, asks }], the last three grouped as [content].  In the code the
    level arrays of a stored snapshot are shared with the live book, so a
    quantity overwritten later shows in the stored snapshot too; stored
    contents are kept here as captured.  The statements below take the
    stored snapshots as they find them in the state, and none depends on
    what their levels hold. *)
Record HistorySnapshot := mkHistory { timestamp : Z; content : Book }.

(** The JSON objects the service sends to its clients, by their [type]
    (the constant [message] texts are left out). *)
Inductive Message :=
  | error_message (error : string)
  | historical (sequence total : Z) (snapshot : Book) (ts : Z)
  | historical_complete (ts : Z)
  | live_snapshot (snapshot : Book) (ts : Z)
  | depth_update (symbol : string) (data : DepthUpdate.t) (ts : Z)
  | resync (snapshot : option Book) (ts : Z).

(** A client socket of the local server.  [symbol] and [connectTime] are
    the tags [_handleClient] puts on it.  [sendError] is the condition of
    the underlying socket: [Some err] when a call of [send] throws [err].
    [outbox] lists what [send] has accepted, oldest first. *)
Module WS.
Record t := mk {
  symbol : option string;
  connectTime : Z;
  readyState : ReadyState;
  sendError : option string;
  outbox : list Message
}.

Definition accepted : t :=
  {| symbol := None; connectTime := 0; readyState := OPEN;
     sendError := None; outbox := [] |}.
End WS.

(** *** The state of the service *)

(** A REST call of [_resetOrderBook] that has not completed, and what is
    chained on its promise: [.then(() => this._broadcastResync(symbol))]
    for the call made on a sequence gap, nothing for the others. *)
Inductive Continuation := nothing | broadcastResync.

Record Request := mkRequest { request_symbol : string; andThen : Continuation }.

(** Callbacks waiting in [setTimeout] / [setImmediate]. *)
Inductive Timer :=
  | retryReset (symbol : string)             (* _resetOrderBook, 5000 ms *)
  | sendSnapshot (client : nat) (symbol : string)   (* _handleClient, 50 ms *)
  | commitHistory (symbol : string).         (* _saveSnapshot *)

(** What a history file holds when it is read. *)
Inductive FileContent :=
  | unreadable                               (* JSON.parse throws *)
  | notAnArray
  | snapshots (l : list HistorySnapshot).

(** Warnings and errors written to the console ([console.log] lines are
    not modelled), in the order in which the code issues them: an entry
    that the code writes from a [setImmediate] callback stands where the
    callback is queued. *)
Inductive Console :=
  | warn_no_order_book (symbol : string)
  | warn_out_of_sync (symbol : string) (expected got : Z)
  | error_processing (symbol : string) (err : string)
  | error_fetch_snapshot (symbol : string)
  | error_client_send (symbol : string) (err : string)
  | error_resync_send (symbol : string) (err : string)
  | error_snapshot_send (symbol : string) (err : string)
  | error_snapshot (symbol : string)
  | error_reading_history (symbol : string)
  | error_disk_write (symbol : string).

Record State := mkState {
  symbols : list string;
  orderBooks : gmap string Book;
  historicalData : gmap string (list HistorySnapshot);
  disk : gmap string FileContent;            (* <symbol>-orderbook.json *)
  sockets : gmap nat WS.t;                   (* the socket objects, by identity *)
  clients : gset nat;                        (* this.localWSS.clients *)
  requests : list Request;
  timers : list Timer;
  binanceUpdateCounter : gmap string Z;
  updateCounter : gmap string Z;
  console : list Console
}.

Definition set_orderBooks f st := mkState (symbols st) (f (orderBooks st)) (historicalData st) (disk st) (sockets st) (clients st) (requests st) (timers st) (binanceUpdateCounter st) (updateCounter st) (console st).
Definition set_historicalData f st := mkState (symbols st) (orderBooks st) (f (historicalData st)) (disk st) (sockets st) (clients st) (requests st) (timers st) (binanceUpdateCounter st) (updateCounter st) (console st).
Definition set_disk f st := mkState (symbols st) (orderBooks st) (historicalData st) (f (disk st)) (sockets st) (clients st) (requests st) (timers st) (binanceUpdateCounter st) (updateCounter st) (console st).
Definition set_sockets f st := mkState (symbols st) (orderBooks st) (historicalData st) (disk st) (f (sockets st)) (clients st) (requests st) (timers st) (binanceUpdateCounter st) (updateCounter st) (console st).
Definition set_clients f st := mkState (symbols st) (orderBooks st) (historicalData st) (disk st) (sockets st) (f (clients st)) (requests st) (timers st) (binanceUpdateCounter st) (updateCounter st) (console st).
Definition set_requests f st := mkState (symbols st) (orderBooks st) (historicalData st) (disk st) (sockets st) (clients st) (f (requests st)) (timers st) (binanceUpdateCounter st) (updateCounter st) (console st).
Definition set_timers f st := mkState (symbols st) (orderBooks st) (historicalData st) (disk st) (sockets st) (clients st) (requests st) (f (timers st)) (binanceUpdateCounter st) (updateCounter st) (console st).
Definition set_binanceUpdateCounter f st := mkState (symbols st) (orderBooks st) (historicalData st) (disk st) (sockets st) (clients st) (requests st) (timers st) (f (binanceUpdateCounter st)) (updateCounter st) (console st).
Definition set_updateCounter f st := mkState (symbols st) (orderBooks st) (historicalData st) (disk st) (sockets st) (clients st) (requests st) (timers st) (binanceUpdateCounter st) (f (updateCounter st)) (console st).
Definition set_console f st := mkState (symbols st) (orderBooks st) (historicalData st) (disk st) (sockets st) (clients st) (requests st) (timers st) (binanceUpdateCounter st) (updateCounter st) (f (console st)).

Definition console_write (entry : Console) : M State unit :=
  modify (set_console (λ c, c ++ [entry])).

(** [client.send(message)].  A socket is always one of [sockets]; the
    other case is there to make the function total. *)
Definition send (client : nat) (message : Message) : M State unit := λ st,
  match sockets st !! client with
  | Some ws =>
      match WS.sendError ws with
      | Some err => (Throws err, st)
      | None =>
          (Returns tt,
           set_sockets (insert client
             (WS.mk (WS.symbol ws) (WS.connectTime ws) (WS.readyState ws)
                    (WS.sendError ws) (WS.outbox ws ++ [message]))) st)
      end
  | None => (Throws "send on a socket that does not exist", st)
  end.

Definition set_socket (client : nat) (f : WS.t → WS.t) : State → State :=
  set_sockets (alter f client).

Definition increment (symbol : string) (counter : gmap string Z) : gmap string Z :=
  <[symbol := default 0 (counter !! symbol) + 1]> counter.

(** *** History store *)

(** The comparator [(a, b) => b.timestamp - a.timestamp]. *)
Definition newestFirst (x y : HistorySnapshot) : Number :=
  numSub (Finite (inject_Z (timestamp y))) (Finite (inject_Z (timestamp x))).

(** [combined.filter((item, index, arr) =>
      arr.findIndex(x => x.timestamp === item.timestamp) === index)] *)
Definition uniqueByTimestamp (arr : list HistorySnapshot) : list HistorySnapshot :=
  snd <$> List.filter
    (λ p, findIndex (λ x, timestamp x =? timestamp p.2) arr =? Z.of_nat p.1)
    (imap (λ index item, (index, item)) arr).

(** [getHistoricalData(symbol, limit)] *)
Definition getHistoricalData (symbol : string) (limit : Z) : M State (list HistorySnapshot) :=
  st <- get ;;
  let inMemory := default [] (historicalData st !! symbol) in
  historicalSnapshots <-
    (if Z.of_nat (length inMemory) <? limit then
       match disk st !! symbol with
       | Some (snapshots diskData) =>
           ret (arraySort newestFirst (uniqueByTimestamp (inMemory ++ diskData)))
       | Some notAnArray => ret inMemory
       | Some unreadable =>
           console_write (error_reading_history symbol) ;; ret inMemory
       | None => ret inMemory
       end
     else ret inMemory) ;;
  ret (slice0 limit historicalSnapshots).

(** [_saveSnapshot(symbol)] when the clock reads [now].  [slice] copies
    the sides, not their levels: in the code a level of the stored
    snapshot is the very array of the book, and shows a quantity that
    [_applyDeltas] overwrites later.  The snapshot holds here the levels
    as they are when it is taken. *)
Definition _saveSnapshot (symbol : string) (now : Z) : M State unit :=
  st <- get ;;
  match orderBooks st !! symbol with
  | None => ret tt
  | Some book =>
      let snapshot :=
        mkHistory now (mkBook (lastUpdateId book)
                              (slice0 20 (bids book)) (slice0 20 (asks book))) in
      match historicalData st !! symbol with
      | None => console_write (error_snapshot symbol)
      | Some stored =>
          let stored1 := snapshot :: stored in
          let stored2 :=
            if (200 <? length stored1)%nat then slice0 200 stored1 else stored1 in
          modify (set_historicalData (insert symbol stored2)) ;;
          if (length stored2 mod 20 =? 0)%nat
          then modify (set_timers (λ t, t ++ [commitHistory symbol]))
          else ret tt
      end
  end.

(** The callback of [_commitHistoricalDataAsync(symbol)]. *)
Definition _commitHistoricalDataAsync (symbol : string) (now : Z) : M State unit :=
  st <- get ;;
  let write diskData :=
    let combined :=
      arraySort newestFirst (default [] (historicalData st !! symbol) ++ diskData) in
    let twoHoursAgo := now - 2 * 60 * 60 * 1000 in
    let filtered := List.filter (λ item, twoHoursAgo <? timestamp item) combined in
    modify (set_disk (insert symbol (snapshots (slice0 1000 filtered)))) in
  match disk st !! symbol with
  | None => write []
  | Some (snapshots diskData) => write diskData
  | Some _ => console_write (error_disk_write symbol)
  end.

(** *** Snapshot acquisition *)

(** [_resetOrderBook(symbol)] up to its [await]: the REST call is issued.
    [andThen] is what the caller chains on the returned promise. *)
Definition _resetOrderBook (symbol : string) (andThen : Continuation) : M State unit :=
  modify (set_requests (λ r, r ++ [mkRequest symbol andThen])).

(** *** Broadcasting *)

(** [client.symbol === symbol && client.readyState === WebSocket.OPEN] *)
Definition subscribed (st : State) (symbol : string) (client : nat) : bool :=
  match sockets st !! client with
  | Some ws =>
      bool_decide (WS.symbol ws = Some symbol) &&
      bool_decide (WS.readyState ws = OPEN)
  | None => false
  end.

(** [_broadcastLiveUpdate(symbol, depthUpdate)] *)
Definition _broadcastLiveUpdate (symbol : string) (depthUpdate : DepthUpdate.t)
    (now : Z) : M State unit :=
  st <- get ;;
  let symbolClients := List.filter (subscribed st symbol) (elements (clients st)) in
  if (length symbolClients =? 0)%nat then ret tt
  else
    let message := depth_update symbol depthUpdate now in
    forEach symbolClients (λ client,
      try_catch (send client message)
                (λ err, console_write (error_client_send symbol err))) ;;
    modify (set_updateCounter (increment symbol)).

(** [_broadcastResync(symbol)] *)
Definition _broadcastResync (symbol : string) (now : Z) : M State unit :=
  st <- get ;;
  let symbolClients := List.filter (subscribed st symbol) (elements (clients st)) in
  if (length symbolClients =? 0)%nat then ret tt
  else
    let message := resync (orderBooks st !! symbol) now in
    forEach symbolClients (λ client,
      try_catch (send client message)
                (λ err, console_write (error_resync_send symbol err))).

(** [_sendSnapshotToClient(client, symbol)] *)
Definition _sendSnapshotToClient (client : nat) (symbol : string) (now : Z) : M State unit :=
  st <- get ;;
  match orderBooks st !! symbol, sockets st !! client with
  | Some book, Some ws =>
      if bool_decide (WS.readyState ws = OPEN) then
        try_catch (send client (live_snapshot book now))
                  (λ err, console_write (error_snapshot_send symbol err))
      else ret tt
  | _, _ => ret tt
  end.

(** The second half of [_resetOrderBook(symbol)]: the REST call has
    completed, with the body of the response or with a failure, and then
    the chained continuation runs (the promise of [_resetOrderBook]
    resolves in both cases, since the failure is caught inside). *)
Definition _resetOrderBook_completed (request : Request) (response : option Book)
    (now : Z) : M State unit :=
  let symbol := request_symbol request in
  match response with
  | Some data =>
      modify (set_orderBooks
        (insert symbol (mkBook (lastUpdateId data) (bids data) (asks data))))
  | None =>
      console_write (error_fetch_snapshot symbol) ;;
      modify (set_timers (λ t, t ++ [retryReset symbol]))
  end ;;
  match andThen request with
  | broadcastResync => _broadcastResync symbol now
  | nothing => ret tt
  end.

(** *** The depth stream *)

(** What arrives on the depth socket: text that [JSON.parse] rejects, or
    an event object. *)
Inductive Payload := malformed | parsed (data : DepthUpdate.t).

(** The ['message'] handler of [_connectDepthWS(symbol)]. *)
Definition onDepthMessage (symbol : string) (msg : Payload) (now : Z) : M State unit :=
  try_catch
    match msg with
    | malformed => throw "Unexpected token in JSON"
    | parsed data =>
        if negb (String.eqb (DepthUpdate.e data) "depthUpdate") then ret tt
        else
          st <- get ;;
          match orderBooks st !! symbol with
          | None => console_write (warn_no_order_book symbol)
          | Some book =>
              modify (set_binanceUpdateCounter (increment symbol)) ;;
              if (DepthUpdate.U data <=? lastUpdateId book + 1) &&
                 (DepthUpdate.u data >=? lastUpdateId book + 1)
              then
                let applied :=
                  _applyDeltas book (DepthUpdate.b data) (DepthUpdate.a data) in
                modify (set_orderBooks (insert symbol
                  (mkBook (DepthUpdate.u data) (bids applied) (asks applied)))) ;;
                _broadcastLiveUpdate symbol data now
              else if DepthUpdate.U data >? lastUpdateId book + 1 then
                console_write
                  (warn_out_of_sync symbol (lastUpdateId book + 1) (DepthUpdate.U data)) ;;
                _resetOrderBook symbol broadcastResync
              else ret tt
          end
    end
    (λ err, console_write (error_processing symbol err)).

(** *** Client connections *)

(** [limit && parseInt(limit) > 0], with the parsed number. *)
Definition backfillCount (limit : option string) : option Z :=
  match limit with
  | Some text =>
      match parseInt text with
      | Some n => if 0 <? n then Some n else None
      | None => None
      end
  | None => None
  end.

Definition ws_close (client : nat) : M State unit :=
  modify (set_socket client (λ ws,
    WS.mk (WS.symbol ws) (WS.connectTime ws) CLOSING (WS.sendError ws) (WS.outbox ws))).

(** [_handleClient(ws, req)] with the [symbol] and [limit] parameters of
    the request URL. *)
Definition _handleClient (ws : nat) (symbolParam limitParam : option string)
    (now : Z) : M State unit :=
  st <- get ;;
  let symbol := default "" (toUpperCase <$> symbolParam) in
  if String.eqb symbol "" || bool_decide (orderBooks st !! symbol = None) then
    send ws (error_message "Invalid or unsupported symbol") ;;
    ws_close ws
  else
    modify (set_socket ws (λ w,
      WS.mk (Some symbol) now (WS.readyState w) (WS.sendError w) (WS.outbox w))) ;;
    match backfillCount limitParam with
    | Some limit =>
        historicalSnapshots <- getHistoricalData symbol limit ;;
        let reversedSnapshots := reverse historicalSnapshots in
        forEach (imap (λ index snapshot, (index, snapshot)) reversedSnapshots)
          (λ p, send ws (historical (Z.of_nat p.1 + 1)
                                    (Z.of_nat (length reversedSnapshots))
                                    (content p.2) (timestamp p.2))) ;;
        send ws (historical_complete now) ;;
        modify (set_timers (λ t, t ++ [sendSnapshot ws symbol]))
    | None => _sendSnapshotToClient ws symbol now
    end.

(** *** The event loop *)

(** What can happen to the running service.  [response k] completes the
    [k]-th pending REST call and [timeout k] fires the [k]-th pending
    timer: the order in which they complete is the environment's. *)
Inductive Event :=
  | connection (symbolParam limitParam : option string)
  | client_closed (client : nat)
  | socket_fault (client : nat) (err : string)
  | depth_message (symbol : string) (msg : Payload)
  | response (k : nat) (data : option Book)
  | timeout (k : nat)
  | snapshot_interval.

Definition dispatch (now : Z) (ev : Event) : M State unit :=
  st <- get ;;
  match ev with
  | connection symbolParam limitParam =>
      let ws := fresh (dom (sockets st)) in
      modify (set_sockets (insert ws WS.accepted)) ;;
      modify (set_clients (λ c, {[ws]} ∪ c)) ;;
      _handleClient ws symbolParam limitParam now
  | client_closed client =>
      modify (set_socket client (λ ws,
        WS.mk (WS.symbol ws) (WS.connectTime ws) CLOSED (WS.sendError ws) (WS.outbox ws))) ;;
      modify (set_clients (λ c, c ∖ {[client]}))
  | socket_fault client err =>
      modify (set_socket client (λ ws,
        WS.mk (WS.symbol ws) (WS.connectTime ws) (WS.readyState ws) (Some err) (WS.outbox ws)))
  | depth_message symbol msg => onDepthMessage symbol msg now
  | response k data =>
      match requests st !! k with
      | Some request =>
          modify (set_requests (delete k)) ;;
          _resetOrderBook_completed request data now
      | None => ret tt
      end
  | timeout k =>
      match timers st !! k with
      | Some timer =>
          modify (set_timers (delete k)) ;;
          match timer with
          | retryReset symbol => _resetOrderBook symbol nothing
          | sendSnapshot client symbol => _sendSnapshotToClient client symbol now
          | commitHistory symbol => _commitHistoricalDataAsync symbol now
          end
      | None => ret tt
      end
  | snapshot_interval =>
      forEach (symbols st) (λ symbol,
        st' <- get ;;
        match orderBooks st' !! symbol with
        | Some _ => _saveSnapshot symbol now
        | None => ret tt
        end)
  end.

(** A run of the service: events with the clock reading at each.  An
    exception that no handler catches ends the run. *)
Definition run (events : list (Z * Event)) : M State unit :=
  forEach events (λ p, dispatch p.1 p.2).

(** The state [_init] leaves before the first event: history storage is
    set up and one snapshot request per symbol is in flight. *)
Definition init (symbolList : list string) (files : gmap string FileContent) : State :=
  let syms := toUpperCase <$> symbolList in
  {| symbols := syms;
     orderBooks := ∅;
     historicalData := list_to_map ((λ symbol, (symbol, [])) <$> syms);
     disk := foldr (λ symbol d,
                      match d !! symbol with
                      | None => <[symbol := snapshots []]> d
                      | Some _ => d
                      end) files syms;
     sockets := ∅; clients := ∅;
     requests := (λ symbol, mkRequest symbol nothing) <$> syms;
     timers := [];
     binanceUpdateCounter := ∅; updateCounter := ∅;
     console := [] |}.

End BinanceCOB.

(** ** The kline concentrator: [class BinanceWebSocketConcentrator] *)

Module BinanceWSC.
Import JS Handler WebSocket.
Open Scope handler_scope.

(** *** JSON values and the property operations the service uses *)

(** An object is the list of its fields, in order. *)
#[warnings="-register-all"]
Inductive JSON :=
  | JNull
  | JBool (b : bool)
  | JNumber (n : Q)
  | JString (s : string)
  | JArray (items : list JSON)
  | JObject (fields : list (string * JSON)).

Definition getField (key : string) (fields : list (string * JSON)) : option JSON :=
  snd <$> List.find (λ f, String.eqb f.1 key) fields.

(** [fields[key] = x]: an existing field keeps its place, a new one goes
    last. *)
Fixpoint setField (key : string) (x : JSON) (fields : list (string * JSON))
    : list (string * JSON) :=
  match fields with
  | [] => [(key, x)]
  | f :: fields' =>
      if String.eqb f.1 key then (key, x) :: fields'
      else f :: setField key x fields'
  end.

(** [v[key]] for the keys the service reads ([data], [e], [k], [i], [s]);
    [None] is [undefined].  The callers guard against [null]. *)
Definition prop (v : JSON) (key : string) : option JSON :=
  match v with
  | JObject fields => getField key fields
  | _ => None
  end.

Definition optProp (v : option JSON) (key : string) : option JSON :=
  match v with
  | Some x => prop x key
  | None => None
  end.

(** [v === text] *)
Definition isString (v : option JSON) (text : string) : bool :=
  match v with
  | Some (JString s) => String.eqb s text
  | _ => false
  end.

(** [v] is [null] or [undefined]: reading a property of it throws. *)
Definition isNullish (v : option JSON) : bool :=
  match v with
  | None | Some JNull => true
  | _ => false
  end.

Definition truthy (v : option JSON) : bool :=
  match v with
  | None | Some JNull => false
  | Some (JBool b) => b
  | Some (JNumber n) => negb (Qeq_bool n 0)
  | Some (JString s) => negb (String.eqb s "")
  | Some (JArray _) | Some (JObject _) => true
  end.

(** [v[key] = x] as it shows once [v] is serialised again.  The body of a
    class is strict code: the assignment throws on a primitive as it does
    on [null]; a named property put on an array is not serialised. *)
Definition assign (v : JSON) (key : string) (x : JSON) : Outcome JSON :=
  match v with
  | JNull => Throws "Cannot set properties of null"
  | JBool _ | JNumber _ | JString _ => Throws "Cannot create property"
  | JObject fields => Returns (JObject (setField key x fields))
  | JArray _ => Returns v
  end.

(** The masquerade of a parsed message [masqueraded]:
    [masqueraded.s = 'XRPLUSD';
     if (masqueraded.k && masqueraded.k.s) masqueraded.k.s = 'XRPLUSD';] *)
Definition masqueradeSymbol (masqueraded : JSON) : Outcome JSON :=
  match assign masqueraded "s" (JString "XRPLUSD") with
  | Throws err => Throws err
  | Returns m =>
      match prop m "k" with
      | Some k =>
          if truthy (Some k) && truthy (prop k "s") then
            match assign k "s" (JString "XRPLUSD") with
            | Throws err => Throws err
            | Returns k' => assign m "k" k'
            end
          else Returns m
      | None => Returns m
      end
  end.

(** *** State *)

Module Socket.
(** [onClose]: the ['close'] handler of [handlePluginConnection] is
    registered on the socket. *)
Record t := mk {
  readyState : ReadyState;
  sendError : option string;
  onClose : bool;
  outbox : list JSON
}.
Definition accepted : t :=
  {| readyState := OPEN; sendError := None; onClose := false; outbox := [] |}.
End Socket.

(** A value of the [this.clients] map: [{ symbol, interval, limit,
    masquerade }]. *)
Record Subscription := mkSubscription {
  symbol : option string;
  interval : option string;
  limit : option string;
  masquerade : bool
}.

Inductive LogEntry :=
  | error_masquerade (err : string)
  | error_send_live (err : string)
  | error_processing (symbol : string) (err : string)
  | error_uncaught (err : string).

Record State := mkState {
  clients : gmap nat Subscription;           (* this.clients, keyed by socket *)
  sockets : gmap nat Socket.t;
  log : list LogEntry
}.

Definition set_clients f st := mkState (f (clients st)) (sockets st) (log st).
Definition set_sockets f st := mkState (clients st) (f (sockets st)) (log st).
Definition set_log f st := mkState (clients st) (sockets st) (f (log st)).

Definition logError (entry : LogEntry) : M State unit :=
  modify (set_log (λ l, l ++ [entry])).

(** [client.send(text)], with the text identified with its JSON value. *)
Definition send (client : nat) (message : JSON) : M State unit := λ st,
  match sockets st !! client with
  | Some ws =>
      match Socket.sendError ws with
      | Some err => (Throws err, st)
      | None =>
          (Returns tt,
           set_sockets (insert client
             (Socket.mk (Socket.readyState ws) (Socket.sendError ws)
                        (Socket.onClose ws) (Socket.outbox ws ++ [message]))) st)
      end
  | None => (Throws "send on a socket that does not exist", st)
  end.

Definition lift {A} (o : Outcome A) : M State A :=
  match o with
  | Returns x => ret x
  | Throws err => throw err
  end.

(** *** Broadcasting *)

(** [subscription.symbol &&
     subscription.symbol.toUpperCase() === symbol.toUpperCase() &&
     client.readyState === WebSocket.OPEN] *)
Definition receives (st : State) (symbol : string) (client : nat)
    (subscription : Subscription) : bool :=
  match BinanceWSC.symbol subscription with
  | Some sym =>
      negb (String.eqb sym "") &&
      String.eqb (toUpperCase sym) (toUpperCase symbol) &&
      match sockets st !! client with
      | Some ws => bool_decide (Socket.readyState ws = OPEN)
      | None => false
      end
  | None => false
  end.

(** [broadcastToClientsForSymbol(symbol, message)] *)
Definition broadcastToClientsForSymbol (symbol : string) (message : JSON)
    : M State unit :=
  st <- get ;;
  forEach (map_to_list (clients st)) (λ entry,
    st' <- get ;;
    if receives st' symbol entry.1 entry.2 then
      try_catch
        (if masquerade entry.2 then
           try_catch
             (masqueraded <- lift (masqueradeSymbol message) ;;
              send entry.1 masqueraded)
             (λ err, logError (error_masquerade err) ;; send entry.1 message)
         else send entry.1 message)
        (λ err, logError (error_send_live err))
    else ret tt).

(** What arrives from the exchange: text that [JSON.parse] rejects, or a
    value. *)
Inductive Payload := malformed | parsed (v : JSON).

(** The ['message'] handler of [initializeWebSocketForSymbol(symbol)]
    (the bookkeeping of the first-message timeout is left out). *)
Definition onMessage (symbol : string) (message : Payload) : M State unit :=
  try_catch
    match message with
    | malformed => throw "Unexpected token in JSON"
    | parsed v =>
        if isNullish (Some v) then throw "Cannot read properties of null"
        else
          let data := prop v "data" in
          if negb (truthy data) || negb (truthy (optProp data "e")) then ret tt
          else if isString (optProp data "e") "kline" then
            if isNullish (optProp data "k")
            then throw "Cannot read properties of undefined"
            else if isString (optProp (optProp data "k") "i") "1m"
            then broadcastToClientsForSymbol symbol (default JNull data)
            else ret tt
          else ret tt
    end
    (λ err, logError (error_processing symbol err)).

(** *** Client connections *)

Definition truthyString (s : option string) : bool :=
  match s with
  | Some text => negb (String.eqb text "")
  | None => false
  end.

(** [handlePluginConnection(ws, req)] with the parameters of the request
    URL.  [history] is what [this.getHistoricalData(symbol.toUpperCase(),
    parseInt(limit, 10))] returns for this request, or the exception it
    throws: the objects built by [aggregateToOneMinute] from the candles
    on disk.  Reading the disk and aggregating candles are not modelled. *)
Definition handlePluginConnection (ws : nat)
    (symbolParam intervalParam limitParam : option string)
    (history : Outcome (list (list (string * JSON)))) : M State unit :=
  let masquerade :=
    match symbolParam with
    | Some sym => negb (String.eqb sym "") && String.eqb (toUpperCase sym) "XRPLUSD"
    | None => false
    end in
  let symbol := if masquerade then Some "XRPUSDT" else symbolParam in
  modify (set_clients
    (insert ws (mkSubscription symbol intervalParam limitParam masquerade))) ;;
  (if truthyString limitParam then
     match symbol with
     | None => throw "Cannot read properties of null"
     | Some _ =>
         historicalData <- lift history ;;
         forEach historicalData (λ line,
           if masquerade then
             masqueraded <- lift (masqueradeSymbol (JObject line)) ;;
             send ws masqueraded
           else send ws (JObject line))
     end
   else ret tt) ;;
  modify (set_sockets (alter (λ w,
    Socket.mk (Socket.readyState w) (Socket.sendError w) true (Socket.outbox w)) ws)).

(** *** The event loop *)

Inductive Event :=
  | connection (symbolParam intervalParam limitParam : option string)
               (history : Outcome (list (list (string * JSON))))
  | client_closed (client : nat)
  | socket_fault (client : nat) (err : string)
  | binance_message (symbol : string) (message : Payload).

(** The process installs an ['uncaughtException'] handler that logs: an
    exception that escapes a handler does not end the run. *)
Definition dispatch (ev : Event) : M State unit :=
  st <- get ;;
  try_catch
    match ev with
    | connection symbolParam intervalParam limitParam history =>
        let ws := fresh (dom (sockets st)) in
        modify (set_sockets (insert ws Socket.accepted)) ;;
        handlePluginConnection ws symbolParam intervalParam limitParam history
    | client_closed client =>
        match sockets st !! client with
        | Some ws =>
            modify (set_sockets (insert client
              (Socket.mk CLOSED (Socket.sendError ws) (Socket.onClose ws)
                         (Socket.outbox ws)))) ;;
            if Socket.onClose ws then modify (set_clients (delete client)) else ret tt
        | None => ret tt
        end
    | socket_fault client err =>
        modify (set_sockets (alter (λ ws,
          Socket.mk (Socket.readyState ws) (Some err) (Socket.onClose ws)
                    (Socket.outbox ws)) client))
    | binance_message symbol message => onMessage symbol message
    end
    (λ err, logError (error_uncaught err)).

Definition run (events : list Event) : M State unit := forEach events dispatch.

Definition init : State := {| clients := ∅; sockets := ∅; log := [] |}.

End BinanceWSC.

(** * The vocabulary of the properties

    What the statements below speak of, for each of the two services, and
    the concrete runs they are tried on. *)

Module COBProperties.
Import JS Handler WebSocket BinanceCOB.

(** ** Sides of a book *)



(** The price of a level reads as a number. *)
Definition numeric (l : Level) : Prop := ∃ a, parseFloat (price l) = Finite a.

(** [x] is priced strictly above [y], as numbers. *)
Definition above (x y : Level) : Prop :=
  ∃ a b, parseFloat (price x) = Finite a ∧ parseFloat (price y) = Finite b ∧ (b < a)%Q.

Definition below (x y : Level) : Prop := above y x.

Definition notBelow (x y : Level) : Prop :=
  ∃ a b, parseFloat (price x) = Finite a ∧ parseFloat (price y) = Finite b ∧ (b <= a)%Q.

Definition notAbove (x y : Level) : Prop := notBelow y x.

(** Bids strictly descending and asks strictly ascending by price; strict,
    so no price occurs twice on a side. *)
Definition sortedBook (book : Book) : Prop :=
  StronglySorted above (bids book) ∧ StronglySorted below (asks book).

(** Every price of the list reads as a finite number, and no two
    different strings of the list read as the same number: never ["10.5"]
    here and ["10.50"] there, nor two decimals that round to the same
    double. *)
Definition canonical (ps : list string) : Prop :=
  ∀ p q, p ∈ ps → q ∈ ps →
    ∃ x y, parseFloat p = Finite x ∧ parseFloat q = Finite y ∧ ((x == y)%Q → p = q).

(** What is done to a replica: a snapshot is stored over it
    ([_resetOrderBook]) or the changes of a delta are applied to it
    ([_applyDeltas]; the sequence id is the caller's business). *)
Inductive BookOp :=
  | snapshotOp (data : Book)
  | deltaOp (bidDeltas askDeltas : list Level).

Definition applyOp (book : Book) (op : BookOp) : Book :=
  match op with
  | snapshotOp data => mkBook (lastUpdateId data) (bids data) (asks data)
  | deltaOp bidDeltas askDeltas => _applyDeltas book bidDeltas askDeltas
  end.

Definition bookPrices (book : Book) : list string :=
  (price <$> bids book) ++ (price <$> asks book).

Definition opPrices (op : BookOp) : list string :=
  match op with
  | snapshotOp data => bookPrices data
  | deltaOp bidDeltas askDeltas => (price <$> bidDeltas) ++ (price <$> askDeltas)
  end.

(** The snapshot of a [snapshotOp] arrives sorted. *)
Definition snapshotSorted (op : BookOp) : Prop :=
  match op with
  | snapshotOp data => sortedBook data
  | deltaOp _ _ => True
  end.

(** The prices of a book are among [ps]. *)
Definition pricesWithin (ps : list string) (book : Book) : Prop :=
  ∀ p, p ∈ bookPrices book → p ∈ ps.

(** Every replica of the service is sorted, with prices among [ps]. *)
Definition sortedReplicas (ps : list string) (st : State) : Prop :=
  ∀ symbol book, orderBooks st !! symbol = Some book →
    sortedBook book ∧ pricesWithin ps book.

(** What the exchange sends is as it documents it: snapshots sorted, and
    prices among [ps]. *)
Definition wellFormed (ps : list string) (ev : Event) : Prop :=
  match ev with
  | response _ (Some data) => sortedBook data ∧ pricesWithin ps data
  | depth_message _ (parsed data) =>
      ∀ p, p ∈ (price <$> DepthUpdate.b data) ++ (price <$> DepthUpdate.a data) → p ∈ ps
  | _ => True
  end.

(** The steps of a handler that leave the replicas alone, and those that
    keep them sorted. *)
Definition sameBooks (st st' : State) : Prop := orderBooks st' = orderBooks st.

Definition keepsSorted (ps : list string) (st st' : State) : Prop :=
  sortedReplicas ps st → sortedReplicas ps st'.

(** ** Sockets and broadcasts *)

(** The socket after a [send] of the message: unchanged when the send
    throws. *)
Definition delivered (message : Message) (ws : WS.t) : WS.t :=
  match WS.sendError ws with
  | Some _ => ws
  | None => WS.mk (WS.symbol ws) (WS.connectTime ws) (WS.readyState ws)
                  (WS.sendError ws) (WS.outbox ws ++ [message])
  end.

Definition deliverAll (message : Message) (receivers : list nat)
    (socks : gmap nat WS.t) : gmap nat WS.t :=
  foldl (λ s client, alter (delivered message) client s) socks receivers.

(** The clients a broadcast for the symbol loops over. *)
Definition receivers (st : State) (symbol : string) : list nat :=
  List.filter (subscribed st symbol) (elements (clients st)).



(** Console entries written with [console.error]. *)
Definition isError (entry : Console) : bool :=
  match entry with
  | warn_no_order_book _ | warn_out_of_sync _ _ _ => false
  | _ => true
  end.

(** A socket that is registered, subscribed to the symbol, open and whose
    [send] works. *)
Definition reachable (st : State) (symbol : string) (client : nat) (ws : WS.t) : Prop :=
  client ∈ clients st ∧ WS.symbol ws = Some symbol ∧
  WS.readyState ws = OPEN ∧ WS.sendError ws = None.

Global Instance reachable_dec st symbol client ws : Decision (reachable st symbol client ws).
Proof. unfold reachable. apply _. Defined.

Definition received (message : Message) (ws : WS.t) : WS.t :=
  WS.mk (WS.symbol ws) (WS.connectTime ws) (WS.readyState ws) (WS.sendError ws)
        (WS.outbox ws ++ [message]).

(** ** What one subscriber sees *)

Definition outboxOf (st : State) (client : nat) : list Message :=
  match sockets st !! client with
  | Some ws => WS.outbox ws
  | None => []
  end.

Definition messageType (m : Message) : string :=
  match m with
  | error_message _ => "error"
  | historical _ _ _ _ => "historical"
  | historical_complete _ => "historical_complete"
  | live_snapshot _ _ => "live_snapshot"
  | depth_update _ _ _ => "depth_update"
  | resync _ _ => "resync"
  end.

Definition isLive (m : Message) : bool :=
  match m with
  | live_snapshot _ _ | depth_update _ _ _ | resync _ _ => true
  | _ => false
  end.

Definition isLiveSnapshot (m : Message) : bool :=
  match m with
  | live_snapshot _ _ => true
  | _ => false
  end.

(** The backfill of [total] snapshots, given oldest first. *)
Definition historicalMessages (total : nat) (snapshots : list HistorySnapshot) : list Message :=
  imap (λ index snapshot,
          historical (Z.of_nat index + 1) (Z.of_nat total)
                     (content snapshot) (timestamp snapshot)) snapshots.

Definition snapshotTimerFor (client : nat) (t : Timer) : bool :=
  match t with
  | sendSnapshot c _ => (c =? client)%nat
  | _ => false
  end.

(** How many 50 ms snapshot timers are pending for the socket. *)
Definition pendingSnapshots (client : nat) (st : State) : nat :=
  length (List.filter (snapshotTimerFor client) (timers st)).

(** What the socket [client] sees between two states of the service: it
    stays, its outbox only grows, by live messages, and every
    [live_snapshot] it gets uses up one of its pending snapshot timers. *)
Definition follows (client : nat) (st st' : State) : Prop :=
  is_Some (sockets st !! client) →
  is_Some (sockets st' !! client) ∧
  ∃ new,
    outboxOf st' client = outboxOf st client ++ new ∧
    Forall (λ m, isLive m = true) new ∧
    (length (List.filter isLiveSnapshot new) + pendingSnapshots client st'
       ≤ pendingSnapshots client st)%nat.

(** Sockets are never forgotten, and a snapshot timer is only ever set
    for a socket that [allowed] admits. *)
Definition keeps (allowed : nat → Prop) (st st' : State) : Prop :=
  (∀ c, is_Some (sockets st !! c) → is_Some (sockets st' !! c)) ∧
  (∀ c symbol, sendSnapshot c symbol ∈ timers st' →
               sendSnapshot c symbol ∈ timers st ∨ allowed c).

(** Every pending snapshot timer names a socket the server has accepted. *)
Definition knownTimers (st : State) : Prop :=
  ∀ c symbol, sendSnapshot c symbol ∈ timers st → is_Some (sockets st !! c).

(** ** History *)

Definition newestFirstOrder (l : list HistorySnapshot) : Prop :=
  StronglySorted (λ x y, timestamp y ≤ timestamp x) l.

Definition oldestFirstOrder (l : list HistorySnapshot) : Prop :=
  StronglySorted (λ x y, timestamp x ≤ timestamp y) l.

(** The history in memory is newest first and no snapshot in it is dated
    after [t]. *)
Definition historyUpTo (t : Z) (st : State) : Prop :=
  ∀ symbol stored, historicalData st !! symbol = Some stored →
    newestFirstOrder stored ∧ Forall (λ h, timestamp h ≤ t) stored.

(** The steps of a handler that leave the history in memory alone, and
    those that keep it in order. *)
Definition sameHistory (st st' : State) : Prop := historicalData st' = historicalData st.

Definition keepsHistoryUpTo (t : Z) (st st' : State) : Prop :=
  historyUpTo t st → historyUpTo t st'.

(** The clock readings of a run never decrease. *)
Definition clockNeverGoesBack (events : list (Z * Event)) : Prop :=
  StronglySorted (λ x y, x.1 ≤ y.1) events.

(** ** Runs of the service that the statements are tried on *)

Module Scenario.

Definition book100 : Book :=
  mkBook 100 [mkLevel "10.00" "1.5"; mkLevel "9.50" "2"]
             [mkLevel "10.50" "1"; mkLevel "11.00" "3"].

Definition book110 : Book :=
  mkBook 110 [mkLevel "10.10" "1"; mkLevel "9.90" "2"]
             [mkLevel "10.40" "1"; mkLevel "10.90" "3"].

(** A well-formed response whose bids come in ascending order. *)
Definition unsorted : Book :=
  mkBook 200 [mkLevel "9.50" "2"; mkLevel "10.00" "1.5"] [mkLevel "10.50" "1"].


(** A sorted book with small prices. *)
Definition book130 : Book :=
  mkBook 130 [mkLevel "0.1" "1"] [mkLevel "0.2" "1"].

Definition delta (U u : Z) : DepthUpdate.t :=
  DepthUpdate.mk "depthUpdate" 0 "BTCUSDT" U u
    [mkLevel "9.75" "4"; mkLevel "9.50" "0.00000000"] [mkLevel "10.50" "2"].

(** The service tracking BTCUSDT, with its first snapshot loaded. *)
Definition started : State :=
  exec (run [(1000, response 0 (Some book100))]) (init ["btcusdt"] ∅).

(** The same with three snapshots recorded in the history. *)
Definition recording : list (Z * Event) :=
  [(1000, response 0 (Some book100)); (31000, snapshot_interval);
   (61000, snapshot_interval); (91000, snapshot_interval)].

Definition recorded : State := exec (run recording) (init ["btcusdt"] ∅).


(** A subscriber asking for three snapshots of history; a delta arrives
    within the 50 ms before its snapshot timer fires. *)
Definition backfillRun : State :=
  exec (run [(92000, connection (Some "btcusdt") (Some "3"));
             (92010, depth_message "BTCUSDT" (parsed (delta 101 102)));
             (92050, timeout 0)]) recorded.

(** A subscriber, a gap, a snapshot call that fails, the retry five
    seconds later and its success. *)
Definition retriedFetch : State :=
  exec (run [(2000, connection (Some "btcusdt") None);
             (3000, depth_message "BTCUSDT" (parsed (delta 105 110)));
             (3200, response 0 None);
             (8200, timeout 0);
             (8400, response 0 (Some book110))]) started.

End Scenario.

End COBProperties.

Module WSCProperties.
Import JS Handler WebSocket BinanceWSC.








Module Scenario.
(** A one-minute kline line as the history and the stream carry it. *)
Definition kline : list (string * JSON) :=
  [("e", JString "kline"); ("s", JString "XRPUSDT");
   ("k", JObject [("s", JString "XRPUSDT"); ("i", JString "1m"); ("c", JString "0.5213")])].

(** A client asking for XRPLUSD with one line of history, then a client
    asking for XRPUSDT. *)
Definition twoClients : State :=
  exec (run [connection (Some "xrplusd") (Some "1m") (Some "1") (Returns [kline]);
             connection (Some "xrpusdt") (Some "1m") None (Returns [])]) init.
End Scenario.

End WSCProperties.

(** * Facts about the library functions *)

Module JSFacts.
Import JS.

(** ** Doubles *)

Section DoubleFacts.
Implicit Types (q r : Q) (d m t k : Z).

(** [a / d < 2 ^ k], on integers. *)
Lemma under_power a d i j k :
  0 ≤ i → 0 ≤ j → a < 2 ^ i → 2 ^ j ≤ d → i - j ≤ k →
  a * 2 ^ Z.max 0 (- k) < d * 2 ^ Z.max 0 k.
Proof.
  intros Hi Hj Ha Hd Hk. destruct (Z.le_gt_cases 0 k).
  - rewrite (Z.max_r 0 k), (Z.max_l 0 (- k)), Z.pow_0_r, Z.mul_1_r by lia.
    eapply Z.lt_le_trans; [exact Ha|].
    etrans; [apply (Z.pow_le_mono_r 2 i (j + k)); lia|].
    rewrite Z.pow_add_r by lia. apply Z.mul_le_mono_nonneg_r; [|done].
    apply Z.pow_nonneg. lia.
  - rewrite (Z.max_l 0 k), (Z.max_r 0 (- k)), Z.pow_0_r, Z.mul_1_r by lia.
    eapply Z.lt_le_trans; [|exact Hd].
    eapply Z.lt_le_trans; [apply Z.mul_lt_mono_pos_r; [apply Z.pow_pos_nonneg; lia|exact Ha]|].
    rewrite <- Z.pow_add_r by lia. apply Z.pow_le_mono_r; lia.
Qed.

(** [2 ^ k <= a / d], on integers. *)
Lemma over_power a d i j k :
  0 ≤ i → 0 ≤ j → 2 ^ i ≤ a → d < 2 ^ j → k ≤ i - j →
  d * 2 ^ Z.max 0 k ≤ a * 2 ^ Z.max 0 (- k).
Proof.
  intros Hi Hj Ha Hd Hk. destruct (Z.le_gt_cases 0 k).
  - rewrite (Z.max_r 0 k), (Z.max_l 0 (- k)), Z.pow_0_r, Z.mul_1_r by lia.
    etrans; [|exact Ha].
    etrans; [apply Z.mul_le_mono_nonneg_r; [apply Z.pow_nonneg; lia|apply Z.lt_le_incl, Hd]|].
    rewrite <- Z.pow_add_r by lia. apply Z.pow_le_mono_r; lia.
  - rewrite (Z.max_l 0 k), (Z.max_r 0 (- k)), Z.pow_0_r, Z.mul_1_r by lia.
    etrans; [apply Z.lt_le_incl, Hd|].
    etrans; [|apply Z.mul_le_mono_nonneg_r; [apply Z.pow_nonneg; lia|exact Ha]].
    rewrite <- Z.pow_add_r by lia. apply Z.pow_le_mono_r; lia.
Qed.

(** [floorLog2 a d] is the exponent [e] with [2 ^ e <= a / d < 2 ^ (e + 1)]. *)
Lemma floorLog2_spec a d :
  0 < a → 0 < d →
  let e := floorLog2 a d in
  d * 2 ^ Z.max 0 e ≤ a * 2 ^ Z.max 0 (- e) ∧
  a * 2 ^ Z.max 0 (- (e + 1)) < d * 2 ^ Z.max 0 (e + 1).
Proof.
  intros Ha Hd e. subst e. unfold floorLog2.
  destruct (Z.log2_spec a Ha) as [Hla Hla']. destruct (Z.log2_spec d Hd) as [Hld Hld'].
  pose proof (Z.log2_nonneg a). pose proof (Z.log2_nonneg d).
  rewrite <- Z.add_1_r in Hla', Hld'.
  destruct (Z.ltb_spec (a * 2 ^ Z.max 0 (- (Z.log2 a - Z.log2 d)))
                       (d * 2 ^ Z.max 0 (Z.log2 a - Z.log2 d))) as [Hlt|Hge].
  - split.
    + apply (over_power a d (Z.log2 a) (Z.log2 d + 1)); lia.
    + by rewrite Z.sub_add.
  - split; [done|].
    apply (under_power a d (Z.log2 a + 1) (Z.log2 d)); lia.
Qed.

(** [roundHalfEven n d] is an integer nearest to [n / d], the even one of
    the two when [n / d] is half-way between them. *)
Lemma roundHalfEven_spec n d :
  0 < d →
  let m := roundHalfEven n d in
  2 * Z.abs (m * d - n) ≤ d ∧ (2 * Z.abs (m * d - n) = d → Z.even m = true).
Proof.
  intros Hd m. subst m. unfold roundHalfEven.
  pose proof (Z.div_mod n d ltac:(lia)) as Hn.
  pose proof (Z.mod_pos_bound n d Hd) as Hr.
  set (q := n / d) in *. set (r := n mod d) in *.
  destruct (Z.ltb_spec (2 * r) d); [split; nia|].
  destruct (Z.ltb_spec d (2 * r)); [split; nia|].
  destruct (Z.even q) eqn:Heven; [split; [nia|done]|].
  split; [nia|]. intros _.
  by rewrite Z.add_1_r, Z.even_succ, <- Z.negb_even, Heven.
Qed.

Lemma roundHalfEven_floor n d : n / d ≤ roundHalfEven n d.
Proof.
  unfold roundHalfEven.
  repeat match goal with |- context [if ?b then _ else _] => destruct b end; lia.
Qed.

(** A number that is at least the quantum it is rounded with does not
    round to zero. *)
Lemma significand_positive a d :
  0 < a → 0 < d → d ≤ a * 2 ^ 1074 →
  let t := Z.max (floorLog2 a d - 52) (-1074) in
  1 ≤ roundHalfEven (a * 2 ^ Z.max 0 (- t)) (d * 2 ^ Z.max 0 t).
Proof.
  intros Ha Hd Hq t.
  etrans; [|apply roundHalfEven_floor].
  assert (0 < 2 ^ Z.max 0 t) by (apply Z.pow_pos_nonneg; lia).
  apply Z.div_le_lower_bound; [lia|]. rewrite Z.mul_1_r.
  destruct (Z.max_spec (floorLog2 a d - 52) (-1074)) as [[Hlt Ht]|[Hle Ht]];
    fold t in Ht; rewrite Ht.
  { change (Z.max 0 (-1074)) with 0. change (Z.max 0 (- -1074)) with 1074. lia. }
  assert (floorLog2 a d ≤ Z.log2 a - Z.log2 d) as He.
  { unfold floorLog2. destruct (_ <? _); lia. }
  destruct (Z.log2_spec a Ha) as [Hla _]. destruct (Z.log2_spec d Hd) as [_ Hld].
  pose proof (Z.log2_nonneg a). pose proof (Z.log2_nonneg d).
  set (e := floorLog2 a d) in *. set (la := Z.log2 a) in *. set (ld := Z.log2 d) in *.
  destruct (Z.le_gt_cases 0 (e - 52)) as [Hpos|Hneg].
  - rewrite (Z.max_r 0 (e - 52)), (Z.max_l 0 (- (e - 52))) by lia.
    rewrite Z.pow_0_r, Z.mul_1_r.
    etrans; [|exact Hla].
    etrans; [apply Z.mul_le_mono_nonneg_r; [lia|apply Z.lt_le_incl, Hld]|].
    rewrite <- Z.pow_add_r by lia. apply Z.pow_le_mono_r; lia.
  - rewrite (Z.max_l 0 (e - 52)), (Z.max_r 0 (- (e - 52))) by lia.
    rewrite Z.pow_0_r, Z.mul_1_r.
    etrans; [apply Z.lt_le_incl, Hld|].
    etrans; [|apply Z.mul_le_mono_nonneg_r; [apply Z.pow_nonneg; lia|exact Hla]].
    rewrite <- Z.pow_add_r by lia. apply Z.pow_le_mono_r; lia.
Qed.

Lemma scaled_value m t :
  -1074 ≤ t → (scaled m t == inject_Z (m * 2 ^ (t + 1074)) * MIN_VALUE)%Q.
Proof.
  intros Ht. unfold scaled. rewrite Qred_correct.
  assert (0 < 2 ^ 1074) as Hp by (by apply Z.pow_pos_nonneg).
  destruct (Z.leb_spec 0 t).
  - unfold Qeq, MIN_VALUE. cbn [Qnum Qden Qmult inject_Z].
    rewrite Pos.mul_1_l, Z2Pos.id by done. rewrite Z.pow_add_r by lia. lia.
  - assert (0 < 2 ^ (- t)) by (apply Z.pow_pos_nonneg; lia).
    unfold Qeq, MIN_VALUE. cbn [Qnum Qden Qmult inject_Z].
    rewrite Pos.mul_1_l, !Z2Pos.id by done.
    replace (2 ^ 1074) with (2 ^ (t + 1074) * 2 ^ (- t)) at 1; [lia|].
    rewrite <- Z.pow_add_r by lia. f_equal. lia.
Qed.

Lemma double_onGrid q : onGrid (double q).
Proof.
  unfold double. destruct (_ =? 0).
  { exists 0. reflexivity. }
  destruct (_ && _); [done|].
  eexists. apply scaled_value. lia.
Qed.

Lemma MIN_VALUE_positive : (0 < MIN_VALUE)%Q.
Proof. reflexivity. Qed.

(** Rounding keeps the sign of a number that is not nearer to 0 than the
    smallest double. *)
Lemma double_sign q :
  (MIN_VALUE <= q ∨ q <= - MIN_VALUE)%Q →
  match double q with
  | Finite r => (0 < q → 0 < r)%Q ∧ (q < 0 → r < 0)%Q
  | Infinity negative => if negative then (q < 0)%Q else (0 < q)%Q
  | NaN => False
  end.
Proof.
  intros Hq. destruct q as [n d].
  assert (0 < 2 ^ 1074) as Hp by (by apply Z.pow_pos_nonneg).
  assert (n ≠ 0 ∧ Z.pos d ≤ Z.abs n * 2 ^ 1074) as [Hn Hd].
  { unfold MIN_VALUE, Qle in Hq. cbn [Qnum Qden Qopp] in Hq.
    rewrite Z2Pos.id in Hq by done. lia. }
  assert (if n <? 0 then (n # d < 0)%Q else (0 < n # d)%Q) as Hneg.
  { unfold Qlt. cbn [Qnum Qden]. destruct (Z.ltb_spec n 0); lia. }
  unfold double. cbn [Qnum Qden].
  destruct (Z.eqb_spec n 0); [done|].
  pose proof (significand_positive (Z.abs n) (Z.pos d)) as Hm.
  cbv zeta in Hm. specialize (Hm ltac:(lia) ltac:(lia) Hd).
  set (t := Z.max (floorLog2 (Z.abs n) (Z.pos d) - 52) (-1074)) in *.
  set (m := roundHalfEven _ _) in *.
  destruct (_ && _); [done|].
  assert (-1074 ≤ t) as Ht by lia.
  assert (0 < 2 ^ (t + 1074)) by (apply Z.pow_pos_nonneg; lia).
  split; intros Hs; unfold Qlt in Hs; cbn [Qnum Qden] in Hs.
  - destruct (Z.ltb_spec n 0); [lia|]. rewrite scaled_value by done.
    apply Qmult_lt_0_compat; [|apply MIN_VALUE_positive].
    change 0%Q with (inject_Z 0). rewrite <- Zlt_Qlt. lia.
  - destruct (Z.ltb_spec n 0); [|lia]. rewrite scaled_value by done.
    rewrite <- (Qmult_0_l MIN_VALUE). apply Qmult_lt_compat_r; [apply MIN_VALUE_positive|].
    change 0%Q with (inject_Z 0). rewrite <- Zlt_Qlt. lia.
Qed.

(** Two doubles are apart by a multiple of the smallest one, so the
    difference of two different doubles rounds to a number of its sign:
    [x - y > 0] exactly when [x > y]. *)
Lemma isPositive_numSub (a b : Q) :
  onGrid (Finite a) → onGrid (Finite b) →
  isPositive (numSub (Finite a) (Finite b)) = negb (Qle_bool a b).
Proof.
  intros [k Hk] [j Hj]. cbn [numSub].
  pose proof MIN_VALUE_positive as HMIN_VALUE.
  destruct (Qlt_le_dec b a) as [Hlt|Hle].
  - assert (Qle_bool a b = false) as ->.
    { destruct (Qle_bool a b) eqn:H; [|done]. apply Qle_bool_iff in H. lra. }
    assert (j < k) as Hjk.
    { apply Z.lt_nge. intros Hkj. apply (Qlt_not_le _ _ Hlt). rewrite Hk, Hj.
      apply Qmult_le_compat_r; [by rewrite <- Zle_Qle|lra]. }
    pose proof (double_sign (a - b)) as Hs.
    assert (MIN_VALUE <= a - b)%Q as Hge.
    { rewrite Hk, Hj.
      setoid_replace (inject_Z k * MIN_VALUE - inject_Z j * MIN_VALUE)%Q
        with (inject_Z (k - j) * MIN_VALUE)%Q using relation Qeq
        by (unfold Z.sub; rewrite inject_Z_plus, inject_Z_opp; ring).
      rewrite <- (Qmult_1_l MIN_VALUE) at 1.
      apply Qmult_le_compat_r; [|lra]. change 1%Q with (inject_Z 1). rewrite <- Zle_Qle. lia. }
    specialize (Hs (or_introl Hge)).
    destruct (double (a - b)) as [|neg|r]; [done| |].
    + cbn. destruct neg; [lra|done].
    + destruct Hs as [Hs _]. cbn. f_equal.
      destruct (Qle_bool r 0) eqn:H; [|done]. apply Qle_bool_iff in H.
      assert (0 < r)%Q by (apply Hs; lra). lra.
  - assert (Qle_bool a b = true) as -> by by apply Qle_bool_iff.
    cbn [negb]. apply Qle_lteq in Hle as [Hlt|Heq].
    + assert (k < j) as Hjk.
      { apply Z.lt_nge. intros Hkj. apply (Qlt_not_le _ _ Hlt). rewrite Hk, Hj.
        apply Qmult_le_compat_r; [by rewrite <- Zle_Qle|lra]. }
      pose proof (double_sign (a - b)) as Hs.
      assert (a - b <= - MIN_VALUE)%Q as Hge.
      { rewrite Hk, Hj.
        setoid_replace (inject_Z k * MIN_VALUE - inject_Z j * MIN_VALUE)%Q
          with (- (inject_Z (j - k) * MIN_VALUE))%Q using relation Qeq
        by (unfold Z.sub; rewrite inject_Z_plus, inject_Z_opp; ring).
        apply Qopp_le_compat.
        rewrite <- (Qmult_1_l MIN_VALUE) at 1.
        apply Qmult_le_compat_r; [|lra]. change 1%Q with (inject_Z 1). rewrite <- Zle_Qle. lia. }
      specialize (Hs (or_intror Hge)).
      destruct (double (a - b)) as [|neg|r]; [done| |].
      * cbn. destruct neg; [done|lra].
      * destruct Hs as [_ Hs]. cbn. apply negb_false_iff, Qle_bool_iff.
        assert (r < 0)%Q by (apply Hs; lra). lra.
    + assert (Qnum (a - b) = 0) as Hz.
      { unfold Qeq in Heq. unfold Qminus, Qplus, Qopp. cbn [Qnum Qden]. lia. }
      unfold double. by rewrite Hz.
Qed.

Lemma integer_onGrid (z : Z) : onGrid (Finite (inject_Z z)).
Proof.
  exists (z * 2 ^ 1074). unfold Qeq, MIN_VALUE. cbn [Qnum Qden Qmult inject_Z].
  rewrite Pos.mul_1_l, Z2Pos.id by (by apply Z.pow_pos_nonneg). lia.
Qed.

Lemma parseFloat_onGrid (s : string) : onGrid (parseFloat s).
Proof.
  unfold parseFloat, readNumber.
  destruct (readSign _) as [neg s0]. destruct (readWord _ _); [done|].
  destruct (readDecimal _) as [[v rest]|]; [apply double_onGrid|done].
Qed.

(** Some decimals and their doubles: [0.1] is not a double; below
    [2 ^ -1075] a number is 0, and [5e-324] is the smallest double; above
    the largest double comes [Infinity]; whole numbers are exact up to
    [2 ^ 53], and a tie goes to the even neighbour. *)
Lemma double_examples :
  parseFloat "0.1" = Finite (3602879701896397 # 36028797018963968) ∧
  parseFloat "0.10000000000000001" = parseFloat "0.1" ∧
  parseFloat "0.1000000000000001" ≠ parseFloat "0.1" ∧
  parseFloat "10.0" = Finite 10 ∧
  parseFloat "1e-400" = Finite 0 ∧
  parseFloat "5e-324" = Finite MIN_VALUE ∧
  parseFloat "2.5e-324" = Finite MIN_VALUE ∧
  parseFloat "2.4e-324" = Finite 0 ∧
  parseFloat "1.7976931348623158e308" = parseFloat "1.7976931348623157e308" ∧
  parseFloat "1.7976931348623159e308" = Infinity false ∧
  parseFloat "9007199254740993" = Finite 9007199254740992 ∧
  parseFloat "9007199254740995" = Finite 9007199254740996 ∧
  parseFloat "-Infinity" = Infinity true ∧
  parseFloat "12.5px" = Finite (25 # 2) ∧
  parseFloat "px" = NaN.
Proof. repeat split; by vm_compute. Qed.

(** [+s] reads the whole string and knows the other bases. *)
Lemma toNumber_examples :
  toNumber "0.00000000" = Finite 0 ∧
  toNumber "" = Finite 0 ∧
  toNumber " 0 " = Finite 0 ∧
  toNumber "0x0" = Finite 0 ∧
  toNumber "0b0" = Finite 0 ∧
  toNumber "1e-400" = Finite 0 ∧
  toNumber "0x1F" = Finite 31 ∧
  toNumber "12.5px" = NaN ∧
  toNumber "-0x10" = NaN ∧
  toNumber "-4" = Finite (-4) ∧
  parseFloat "0x1F" = Finite 0.
Proof. repeat split; by vm_compute. Qed.
End DoubleFacts.

(** ** Arrays *)

Section ArrayFacts.
Context {A : Type}.
Implicit Types (P : A → bool) (l : list A).

Lemma findIndexFrom_cases P l i :
  (findIndexFrom P l i = -1 ∧ ∀ x, x ∈ l → P x = false) ∨
  (∃ l1 x l2, l = l1 ++ x :: l2 ∧ P x = true ∧ (∀ y, y ∈ l1 → P y = false) ∧
     findIndexFrom P l i = i + Z.of_nat (length l1)).
Proof.
  revert i. induction l as [|x l IH]; intros i; simpl.
  - left. split; [done|]. intros x Hx. by apply elem_of_nil in Hx.
  - destruct (P x) eqn:HP.
    + right. exists [], x, l. simpl. repeat split; [done| |lia].
      intros y Hy. by apply elem_of_nil in Hy.
    + destruct (IH (i + 1)) as [[Hi Hall]|(l1 & y & l2 & -> & Hy & Hl1 & Hi)].
      * left. split; [done|]. intros z Hz.
        apply elem_of_cons in Hz as [->|Hz]; auto.
      * right. exists (x :: l1), y, l2. simpl. repeat split; [done| |lia].
        intros z Hz. apply elem_of_cons in Hz as [->|Hz]; auto.
Qed.

Lemma findIndex_cases P l :
  (findIndex P l = -1 ∧ ∀ x, x ∈ l → P x = false) ∨
  (∃ l1 x l2, l = l1 ++ x :: l2 ∧ P x = true ∧ (∀ y, y ∈ l1 → P y = false) ∧
     findIndex P l = Z.of_nat (length l1)).
Proof.
  unfold findIndex. destruct (findIndexFrom_cases P l 0) as [?|(l1&x&l2&?&?&?&?)]; [by left|].
  right. exists l1, x, l2. repeat split; done.
Qed.

Lemma insertSorted_Permutation (cmp : A → A → Number) x l :
  insertSorted cmp x l ≡ₚ x :: l.
Proof.
  induction l as [|y l IH]; simpl; [done|].
  destruct (comesAfter cmp x y); [|done].
  rewrite IH. apply Permutation_swap.
Qed.

Lemma arraySort_Permutation (cmp : A → A → Number) l : arraySort cmp l ≡ₚ l.
Proof.
  induction l as [|x l IH]; simpl; [done|].
  unfold arraySort in *. simpl. rewrite insertSorted_Permutation. by constructor.
Qed.

Lemma slice0_length (n : Z) l : 0 ≤ n → Z.of_nat (length (slice0 n l)) ≤ n.
Proof.
  intros Hn. unfold slice0. destruct (Z.leb_spec 0 n); [|lia].
  rewrite length_take. lia.
Qed.

Lemma slice0_take (n : nat) l : slice0 (Z.of_nat n) l = take n l.
Proof.
  unfold slice0. destruct (Z.leb_spec 0 (Z.of_nat n)); [|lia]. by rewrite Nat2Z.id.
Qed.
End ArrayFacts.

Section Sorting.
Context {A : Type} (cmp : A → A → Number) (ok : A → Prop) (le : A → A → Prop).
Hypothesis le_of_stays : ∀ x y, ok x → ok y → comesAfter cmp x y = false → le x y.
Hypothesis le_of_moves : ∀ x y, ok x → ok y → comesAfter cmp x y = true → le y x.
Hypothesis le_trans : ∀ x y z, le x y → le y z → le x z.

Lemma insertSorted_sorted x l :
  ok x → Forall ok l → StronglySorted le l → StronglySorted le (insertSorted cmp x l).
Proof.
  intros Hx Hok Hs. induction Hs as [|y l Hs IH Hy]; simpl.
  - repeat constructor.
  - apply Forall_cons in Hok as [Hoky Hok].
    destruct (comesAfter cmp x y) eqn:Hc.
    + constructor; [by apply IH|].
      rewrite insertSorted_Permutation. constructor; [by apply le_of_moves|done].
    + assert (le x y) by by apply le_of_stays.
      constructor; [by constructor|]. constructor; [done|].
      eapply Forall_impl; [exact Hy|]. intros z Hz. by eapply le_trans.
Qed.

Lemma arraySort_sorted l : Forall ok l → StronglySorted le (arraySort cmp l).
Proof.
  induction 1 as [|x l Hx Hl IH]; simpl; [constructor|].
  unfold arraySort in *. simpl. apply insertSorted_sorted; [done| |done].
  fold (arraySort cmp l). by rewrite arraySort_Permutation.
Qed.
End Sorting.

End JSFacts.

(** * Facts about handlers *)

Module HandlerFacts.
Import Handler.

Lemma bind_modify {S A} (f : S → S) (k : unit → M S A) st :
  bind (modify f) k st = k tt (f st).
Proof. reflexivity. Qed.

Lemma bind_get {S A} (k : S → M S A) st : bind get k st = k st st.
Proof. reflexivity. Qed.

Lemma bind_ret {S A B} (x : A) (k : A → M S B) st : bind (ret x) k st = k x st.
Proof. reflexivity. Qed.

(** ** Relations that every step of a handler preserves *)
Section Preserves.
Context {S : Type} (R : relation S) `{!PreOrder R}.

Lemma preserves_at {A} (m : M S A) st : preserves R m → R st (m st).2.
Proof. intros H. apply H. Qed.

Lemma preserves_ret {A} (x : A) : preserves R (ret x).
Proof. intros st. reflexivity. Qed.

Lemma preserves_throw {A} err : preserves R (throw (A:=A) err).
Proof. intros st. reflexivity. Qed.

Lemma preserves_get : preserves R get.
Proof. intros st. reflexivity. Qed.

Lemma preserves_modify f : (∀ st, R st (f st)) → preserves R (modify f).
Proof. intros H st. apply H. Qed.

Lemma preserves_bind {A B} (m : M S A) (k : A → M S B) :
  preserves R m → (∀ x, preserves R (k x)) → preserves R (bind m k).
Proof.
  intros Hm Hk st. unfold bind. specialize (Hm st).
  destruct (m st) as [[x|err] st']; simpl in *; [|done].
  etrans; [exact Hm|apply Hk].
Qed.

Lemma preserves_get_bind {A} (k : S → M S A) :
  (∀ st, R st (k st st).2) → preserves R (bind get k).
Proof. intros H st. apply H. Qed.

Lemma preserves_try_catch {A} (body : M S A) handler :
  preserves R body → (∀ err, preserves R (handler err)) → preserves R (try_catch body handler).
Proof.
  intros Hm Hk st. unfold try_catch. specialize (Hm st).
  destruct (body st) as [[x|err] st']; simpl in *; [done|].
  etrans; [exact Hm|apply Hk].
Qed.

Lemma preserves_forEach {B} (l : list B) body :
  (∀ x, preserves R (body x)) → preserves R (forEach l body).
Proof.
  intros H. induction l as [|x l IH]; simpl.
  - apply preserves_ret.
  - apply preserves_bind; [apply H|done].
Qed.
End Preserves.

(** Steps through the text of a handler; [leaf] is tried on what is not
    a control structure. *)
Ltac walk leaf :=
  repeat lazymatch goal with
  | |- preserves _ (ret _) => apply (preserves_ret _)
  | |- preserves _ (throw _) => apply (preserves_throw _)
  | |- preserves _ get => apply (preserves_get _)
  | |- preserves _ (bind _ _) => apply (preserves_bind _); [|intros ?; cbv beta]
  | |- preserves _ (try_catch _ _) => apply (preserves_try_catch _); [|intros ?; cbv beta]
  | |- preserves _ (forEach _ _) => apply (preserves_forEach _); intros ?; cbv beta
  | |- preserves _ (match _ with _ => _ end) => case_match
  | |- preserves _ (let _ := _ in _) => cbv zeta
  | |- preserves _ (modify _) => apply (preserves_modify _); intros ?; leaf
  | |- preserves _ _ => leaf
  end.

End HandlerFacts.

(** * The order-book service *)

Module COBFacts.
Import JS Handler WebSocket BinanceCOB.
Import COBProperties COBProperties.Scenario JSFacts HandlerFacts.

(** ** Sides of a book *)

Section BookFacts.
Implicit Types (side : list Level) (d : Level) (p : string).




Lemma applyLevel_cases side d :
  ((∀ y, y ∈ side → price y ≠ price d) ∧
     applyLevel side d = if isZero (toNumber (qty d)) then side else side ++ [d]) ∨
  (∃ l1 x l2, side = l1 ++ x :: l2 ∧ price x = price d ∧
     (∀ y, y ∈ l1 → price y ≠ price d) ∧
     applyLevel side d =
       if isZero (toNumber (qty d)) then l1 ++ l2
       else l1 ++ mkLevel (price x) (qty d) :: l2).
Proof.
  unfold applyLevel.
  destruct (findIndex_cases (λ l, String.eqb (price l) (price d)) side)
    as [[-> Hall]|(l1 & x & l2 & -> & Hx & Hl1 & ->)].
  - left. split; [|done].
    intros y Hy. apply String.eqb_neq. auto.
  - right. exists l1, x, l2. apply String.eqb_eq in Hx.
    split; [done|]. split; [done|]. split.
    { intros y Hy. apply String.eqb_neq. auto. }
    destruct (isZero _).
    + destruct (Z.ltb_spec (-1) (Z.of_nat (length l1))); [|lia].
      unfold splice1. rewrite Nat2Z.id. apply delete_middle.
    + destruct (Z.eqb_spec (Z.of_nat (length l1)) (-1)); [lia|].
      rewrite Nat2Z.id.
      replace (length l1) with (length l1 + 0)%nat at 1 by lia.
      by rewrite alter_app_r.
Qed.

Lemma applyLevel_prices side d p :
  p ∈ price <$> applyLevel side d → p ∈ price <$> side ∨ p = price d.
Proof.
  destruct (applyLevel_cases side d) as [[_ ->]|(l1 & x & l2 & -> & Hx & _ & ->)];
    destruct (isZero _); rewrite ?fmap_app, ?fmap_cons; simpl;
    rewrite ?elem_of_app, ?elem_of_cons, ?elem_of_nil; intuition auto.
Qed.

Lemma applyLevel_NoDup side d :
  NoDup (price <$> side) → NoDup (price <$> applyLevel side d).
Proof.
  intros Hnd.
  destruct (applyLevel_cases side d) as [[Habs ->]|(l1 & x & l2 & -> & Hx & _ & ->)].
  - destruct (isZero _); [done|].
    rewrite fmap_app. apply NoDup_app. split; [done|]. split; [|apply NoDup_singleton].
    intros p Hp Hin. simpl in Hin. apply list_elem_of_singleton in Hin as ->.
    apply list_elem_of_fmap in Hp as (y & Hy & Hin). by apply (Habs y).
  - rewrite fmap_app, fmap_cons in Hnd.
    destruct (isZero _); rewrite fmap_app, ?fmap_cons; [|done].
    apply NoDup_app in Hnd as (H1 & H2 & H3). apply NoDup_cons in H3 as [_ H3].
    apply NoDup_app. split; [done|]. split; [|done].
    intros p Hp Hin. apply (H2 p Hp). by right.
Qed.

Lemma foldl_applyLevel_NoDup deltas side :
  NoDup (price <$> side) → NoDup (price <$> foldl applyLevel side deltas).
Proof.
  revert side. induction deltas as [|d deltas IH]; intros side H; simpl; [done|].
  by apply IH, applyLevel_NoDup.
Qed.

Lemma foldl_applyLevel_prices deltas side p :
  p ∈ price <$> foldl applyLevel side deltas →
  p ∈ price <$> side ∨ p ∈ price <$> deltas.
Proof.
  revert side. induction deltas as [|d deltas IH]; intros side; simpl; [by left|].
  intros H. apply IH in H as [H|H].
  - apply applyLevel_prices in H as [H| ->]; [by left|]. right. left.
  - right. by right.
Qed.

Lemma above_distinct x y : above x y → price x ≠ price y.
Proof.
  intros (a & b & Ha & Hb & Hlt) Heq. rewrite Heq, Hb in Ha. injection Ha as ->.
  by apply Qlt_irrefl in Hlt.
Qed.

Lemma above_NoDup side : StronglySorted above side → NoDup (price <$> side).
Proof.
  induction 1 as [|x l Hs IH Hx]; [constructor|].
  rewrite fmap_cons. constructor; [|done].
  intros Hin. apply list_elem_of_fmap in Hin as (y & Heq & Hy).
  rewrite Forall_forall in Hx. by apply (above_distinct x y); [apply Hx|].
Qed.

Lemma below_NoDup side : StronglySorted below side → NoDup (price <$> side).
Proof.
  induction 1 as [|x l Hs IH Hx]; [constructor|].
  rewrite fmap_cons. constructor; [|done].
  intros Hin. apply list_elem_of_fmap in Hin as (y & Heq & Hy).
  rewrite Forall_forall in Hx. by apply (above_distinct y x); [apply Hx|].
Qed.

Lemma comesAfter_bidOrder x y a b :
  parseFloat (price x) = Finite a → parseFloat (price y) = Finite b →
  comesAfter bidOrder x y = negb (Qle_bool b a).
Proof.
  intros Ha Hb. unfold comesAfter, bidOrder. rewrite Ha, Hb.
  apply isPositive_numSub; [rewrite <- Hb|rewrite <- Ha]; apply parseFloat_onGrid.
Qed.

Lemma comesAfter_askOrder x y a b :
  parseFloat (price x) = Finite a → parseFloat (price y) = Finite b →
  comesAfter askOrder x y = negb (Qle_bool a b).
Proof.
  intros Ha Hb. unfold comesAfter, askOrder. rewrite Ha, Hb.
  apply isPositive_numSub; [rewrite <- Ha|rewrite <- Hb]; apply parseFloat_onGrid.
Qed.

Lemma notBelow_trans x y z : notBelow x y → notBelow y z → notBelow x z.
Proof.
  intros (a & b & Ha & Hb & H1) (b' & c & Hb' & Hc & H2).
  rewrite Hb in Hb'. injection Hb' as <-. exists a, c. repeat split; [done..|lra].
Qed.

Lemma bids_sorted side :
  Forall numeric side → StronglySorted notBelow (arraySort bidOrder side).
Proof.
  apply arraySort_sorted.
  - intros x y [a Ha] [b Hb]. rewrite (comesAfter_bidOrder x y a b) by done.
    intros H. apply negb_false_iff, Qle_bool_iff in H. by exists a, b.
  - intros x y [a Ha] [b Hb]. rewrite (comesAfter_bidOrder x y a b) by done.
    intros H. apply negb_true_iff in H. exists b, a. repeat split; [done..|].
    destruct (Qlt_le_dec a b) as [Hlt|Hle]; [lra|].
    apply Qle_bool_iff in Hle. congruence.
  - apply notBelow_trans.
Qed.

Lemma asks_sorted side :
  Forall numeric side → StronglySorted notAbove (arraySort askOrder side).
Proof.
  apply arraySort_sorted.
  - intros x y [a Ha] [b Hb]. rewrite (comesAfter_askOrder x y a b) by done.
    intros H. apply negb_false_iff, Qle_bool_iff in H. by exists b, a.
  - intros x y [a Ha] [b Hb]. rewrite (comesAfter_askOrder x y a b) by done.
    intros H. apply negb_true_iff in H. exists a, b. repeat split; [done..|].
    destruct (Qlt_le_dec b a) as [Hlt|Hle]; [lra|].
    apply Qle_bool_iff in Hle. congruence.
  - intros x y z H1 H2. exact (notBelow_trans z y x H2 H1).
Qed.

Lemma strictly_sorted (R S : relation Level) (ps : list string) side :
  (∀ x y, price x ∈ ps → price y ∈ ps → price x ≠ price y → R x y → S x y) →
  (∀ l, l ∈ side → price l ∈ ps) →
  NoDup (price <$> side) → StronglySorted R side → StronglySorted S side.
Proof.
  intros HRS Hps Hnd Hs. induction Hs as [|x l Hs IH Hx]; [constructor|].
  rewrite fmap_cons in Hnd. apply NoDup_cons in Hnd as [Hnx Hnd].
  constructor.
  - apply IH; [|done]. intros y Hy. apply Hps. by right.
  - rewrite Forall_forall in Hx |- *. intros y Hy. apply HRS.
    + apply Hps. left.
    + apply Hps. by right.
    + intros Heq. apply Hnx. rewrite Heq. by apply list_elem_of_fmap_2.
    + by apply Hx.
Qed.

Lemma canonical_above ps x y :
  canonical ps → price x ∈ ps → price y ∈ ps → price x ≠ price y →
  notBelow x y → above x y.
Proof.
  intros Hc Hx Hy Hne (a & b & Ha & Hb & Hle).
  destruct (Hc _ _ Hx Hy) as (a' & b' & Ha' & Hb' & Hinj).
  rewrite Ha in Ha'. rewrite Hb in Hb'. injection Ha' as <-. injection Hb' as <-.
  exists a, b. repeat split; [done..|].
  apply Qle_lteq in Hle as [Hlt|Heq]; [done|].
  exfalso. apply Hne, Hinj. by symmetry.
Qed.

Lemma canonical_numeric ps l : canonical ps → price l ∈ ps → numeric l.
Proof. intros Hc Hl. destruct (Hc _ _ Hl Hl) as (a & _ & Ha & _). by exists a. Qed.
End BookFacts.

(** ** What a delta changes *)











(** ** The sort invariant *)

Lemma sorted_side (R S : relation Level) cmp ps side deltas :
  canonical ps →
  (∀ l, Forall numeric l → StronglySorted R (arraySort cmp l)) →
  (∀ x y, price x ∈ ps → price y ∈ ps → price x ≠ price y → R x y → S x y) →
  (∀ p, p ∈ price <$> side → p ∈ ps) →
  (∀ p, p ∈ price <$> deltas → p ∈ ps) →
  NoDup (price <$> side) →
  StronglySorted S (arraySort cmp (foldl applyLevel side deltas)) ∧
  (∀ p, p ∈ price <$> arraySort cmp (foldl applyLevel side deltas) → p ∈ ps).
Proof.
  intros Hc Hsort HRS Hside Hdeltas Hnd.
  assert (∀ p, p ∈ price <$> foldl applyLevel side deltas → p ∈ ps) as Hps.
  { intros p Hp. apply foldl_applyLevel_prices in Hp as [?|?]; auto. }
  assert (∀ p, p ∈ price <$> arraySort cmp (foldl applyLevel side deltas) → p ∈ ps) as Hps'.
  { intros p. rewrite arraySort_Permutation. apply Hps. }
  split; [|done].
  eapply strictly_sorted; [exact HRS| | |].
  - intros l Hl. apply Hps'. by apply list_elem_of_fmap_2.
  - rewrite arraySort_Permutation. by apply foldl_applyLevel_NoDup.
  - apply Hsort. apply Forall_forall. intros l Hl.
    eapply canonical_numeric; [done|]. apply Hps. by apply list_elem_of_fmap_2.
Qed.

(** One delta keeps a sorted book sorted. *)
Lemma applyDeltas_sorted ps book bidDeltas askDeltas :
  canonical ps →
  sortedBook book → pricesWithin ps book →
  (∀ p, p ∈ (price <$> bidDeltas) ++ (price <$> askDeltas) → p ∈ ps) →
  let applied := _applyDeltas book bidDeltas askDeltas in
  sortedBook applied ∧ pricesWithin ps applied.
Proof.
  intros Hc [Hsb Hsa] Hp Hd applied.
  destruct (sorted_side notBelow above bidOrder ps (bids book) bidDeltas) as [Hb1 Hb2];
    [done|apply bids_sorted|intros x y; by apply canonical_above| | |by apply above_NoDup|].
  { intros p H. apply Hp, elem_of_app. by left. }
  { intros p H. apply Hd, elem_of_app. by left. }
  destruct (sorted_side notAbove below askOrder ps (asks book) askDeltas) as [Ha1 Ha2];
    [done|apply asks_sorted| | | |by apply below_NoDup|].
  { intros x y Hx Hy Hne H. apply (canonical_above ps y x); [done..|congruence|done]. }
  { intros p H. apply Hp, elem_of_app. by right. }
  { intros p H. apply Hd, elem_of_app. by right. }
  split; [by split|].
  intros p H. apply elem_of_app in H as [H|H]; auto.
Qed.

(** Claim C5, amended.  The service stores a snapshot as it arrives, and
    it looks a price up as a string but sorts prices as doubles.  So:
    provided every snapshot arrives with bids strictly descending and
    asks strictly ascending, every price reads with [parseFloat] as a
    finite number, and no two different price strings read as the same
    double, after the first snapshot and any sequence of snapshots and
    deltas the bids are strictly descending and the asks strictly
    ascending by price, with no price twice on a side. *)
Theorem sorted_after_operations (book0 data : Book) (ops : list BookOp) :
  canonical (bookPrices data ++ mjoin (opPrices <$> ops)) →
  sortedBook data →
  Forall snapshotSorted ops →
  sortedBook (foldl applyOp book0 (snapshotOp data :: ops)).
Proof.
  intros Hc Hdata Hops. simpl.
  set (ps := bookPrices data ++ mjoin (opPrices <$> ops)) in *.
  assert (∀ book,
    sortedBook book → pricesWithin ps book →
    (∀ p, p ∈ mjoin (opPrices <$> ops) → p ∈ ps) →
    sortedBook (foldl applyOp book ops)) as Hinv.
  { clear Hdata. clearbody ps.
    induction Hops as [|op ops Hop Hops IH]; intros book Hs Hp Hq; [done|].
    simpl. rewrite fmap_cons in Hq. simpl in Hq.
    assert (∀ p, p ∈ opPrices op → p ∈ ps) as Hop' by (intros; apply Hq, elem_of_app; by left).
    assert (∀ p, p ∈ mjoin (opPrices <$> ops) → p ∈ ps) as Hq'
      by (intros; apply Hq, elem_of_app; by right).
    destruct op as [d|bd ad]; simpl in *.
    - apply IH; [by destruct d|by destruct d|done].
    - destruct (applyDeltas_sorted ps book bd ad) as [Hs' Hp']; [done..|].
      by apply IH. }
  apply Hinv.
  - by destruct data.
  - intros p Hp. apply elem_of_app. left. by destruct data.
  - intros p Hp. apply elem_of_app. by right.
Qed.

(** The prices of a short list written out are canonical when they are
    pairwise different numbers. *)
Ltac canonical_by_cases :=
  intros p q Hp Hq;
  repeat (apply elem_of_cons in Hp as [->|Hp]);
  try (by apply elem_of_nil in Hp);
  repeat (apply elem_of_cons in Hq as [->|Hq]);
  try (by apply elem_of_nil in Hq);
  (eexists _, _; split; [vm_compute; reflexivity|]; split; [vm_compute; reflexivity|];
   first [ intros _; reflexivity | intros Heq; vm_compute in Heq; discriminate Heq ]).

Ltac sorted_by_cases :=
  split; repeat constructor;
  (eexists _, _; split; [vm_compute; reflexivity|]; split; [vm_compute; reflexivity|];
   vm_compute; reflexivity).

(** Claim C5, amended, on a run of two snapshots and two deltas. *)
Lemma sorted_after_operations_witness :
  let ops := [deltaOp [mkLevel "9.75" "4"; mkLevel "9.50" "0.00000000"] [mkLevel "10.50" "2"];
              snapshotOp book110;
              deltaOp [mkLevel "10.00" "7"] [mkLevel "10.40" "0"]] in
  canonical (bookPrices book100 ++ mjoin (opPrices <$> ops)) ∧
  sortedBook book100 ∧
  Forall snapshotSorted ops ∧
  sortedBook (foldl applyOp unsorted (snapshotOp book100 :: ops)).
Proof.
  intros ops.
  assert (canonical (bookPrices book100 ++ mjoin (opPrices <$> ops))) as Hc
    by (cbn; canonical_by_cases).
  assert (sortedBook book100) as Hd by sorted_by_cases.
  assert (Forall snapshotSorted ops) as Ho.
  { constructor; [exact I|]. constructor; [sorted_by_cases|].
    constructor; [exact I|]. constructor. }
  split; [exact Hc|]. split; [exact Hd|]. split; [exact Ho|].
  exact (sorted_after_operations unsorted book100 ops Hc Hd Ho).
Defined.

(** Claim C5 fails as stated, in three ways.  A delta followed by a
    snapshot whose bids arrive in ascending order leaves the replica with
    ascending bids.  After a sorted snapshot, a delta that writes the
    price 10.00 as 10.0 leaves two bid levels at that price.  And after a
    sorted snapshot with a bid at 0.1, a delta with a bid at
    0.10000000000000001, another decimal that is the same double, leaves
    two bid levels that the sort takes for equal. *)
Lemma replica_not_always_sorted :
  ¬ sortedBook (foldl applyOp book100
                  [deltaOp [mkLevel "9.75" "4"] []; snapshotOp unsorted]) ∧
  ¬ sortedBook (foldl applyOp unsorted
                  [snapshotOp book100; deltaOp [mkLevel "10.0" "3"] []]) ∧
  (sortedBook book130 ∧
   bids (foldl applyOp unsorted
           [snapshotOp book130; deltaOp [mkLevel "0.10000000000000001" "3"] []]) =
     [mkLevel "0.1" "1"; mkLevel "0.10000000000000001" "3"] ∧
   ¬ sortedBook (foldl applyOp unsorted
                   [snapshotOp book130; deltaOp [mkLevel "0.10000000000000001" "3"] []])).
Proof.
  assert (bids (foldl applyOp unsorted
                  [snapshotOp book130; deltaOp [mkLevel "0.10000000000000001" "3"] []]) =
          [mkLevel "0.1" "1"; mkLevel "0.10000000000000001" "3"]) as Hrounded
    by (vm_compute; reflexivity).
  split; [|split; [|split; [sorted_by_cases|split; [exact Hrounded|]]]]; intros [Hbids _].
  3: { rewrite Hrounded in Hbids.
       apply StronglySorted_inv in Hbids as [_ Hfirst].
       apply Forall_cons in Hfirst as [(a & b & Ha & Hb & Hlt) _].
       vm_compute in Ha. vm_compute in Hb. injection Ha as <-. injection Hb as <-.
       vm_compute in Hlt. discriminate Hlt. }
  - simpl in Hbids.
    apply StronglySorted_inv in Hbids as [_ Hfirst].
    apply Forall_cons in Hfirst as [(a & b & Ha & Hb & Hlt) _].
    vm_compute in Ha. vm_compute in Hb. injection Ha as <-. injection Hb as <-.
    vm_compute in Hlt. discriminate Hlt.
  - assert (bids (foldl applyOp unsorted
                    [snapshotOp book100; deltaOp [mkLevel "10.0" "3"] []]) =
            [mkLevel "10.00" "1.5"; mkLevel "10.0" "3"; mkLevel "9.50" "2"]) as Heq
      by (vm_compute; reflexivity).
    rewrite Heq in Hbids.
    apply StronglySorted_inv in Hbids as [_ Hfirst].
    apply Forall_cons in Hfirst as [(a & b & Ha & Hb & Hlt) _].
    vm_compute in Ha. vm_compute in Hb. injection Ha as <-. injection Hb as <-.
    vm_compute in Hlt. discriminate Hlt.
Qed.

(** ** The replicas of the running service *)

Section SortedReplicas.
Context (ps : list string).
Implicit Types (st : State) (symbol : string).

Global Instance sameBooks_preorder : PreOrder sameBooks.
Proof. split; [by intros ?|]. intros st1 st2 st3 H12 H23. unfold sameBooks in *. congruence. Qed.

Global Instance keepsSorted_preorder : PreOrder (keepsSorted ps).
Proof. split; [by intros ??|]. intros st1 st2 st3 H12 H23 H. by apply H23, H12. Qed.

Lemma sameBooks_send c message : preserves sameBooks (send c message).
Proof.
  intros st. unfold send. destruct (sockets st !! c) as [ws|]; [|reflexivity].
  destruct (WS.sendError ws); reflexivity.
Qed.

Ltac step :=
  idtac;
  lazymatch goal with
  | |- preserves _ (send _ _) => apply sameBooks_send
  | |- preserves _ (console_write _) => apply (preserves_modify _); intros ?; reflexivity
  | |- sameBooks _ _ => reflexivity
  end.

Lemma sameBooks_getHistoricalData symbol limit :
  preserves sameBooks (getHistoricalData symbol limit).
Proof. unfold getHistoricalData. walk step. Qed.

Lemma sameBooks_saveSnapshot symbol now : preserves sameBooks (_saveSnapshot symbol now).
Proof. unfold _saveSnapshot. walk step. Qed.

Lemma sameBooks_commit symbol now :
  preserves sameBooks (_commitHistoricalDataAsync symbol now).
Proof. unfold _commitHistoricalDataAsync. walk step. Qed.

Lemma sameBooks_resetOrderBook symbol continuation :
  preserves sameBooks (_resetOrderBook symbol continuation).
Proof. unfold _resetOrderBook. walk step. Qed.

Lemma sameBooks_broadcastLiveUpdate symbol data now :
  preserves sameBooks (_broadcastLiveUpdate symbol data now).
Proof. unfold _broadcastLiveUpdate. walk step. Qed.

Lemma sameBooks_broadcastResync symbol now :
  preserves sameBooks (_broadcastResync symbol now).
Proof. unfold _broadcastResync. walk step. Qed.

Lemma sameBooks_sendSnapshotToClient c symbol now :
  preserves sameBooks (_sendSnapshotToClient c symbol now).
Proof. unfold _sendSnapshotToClient. walk step. Qed.

Lemma sameBooks_handleClient ws symbolParam limitParam now :
  preserves sameBooks (_handleClient ws symbolParam limitParam now).
Proof.
  unfold _handleClient, ws_close. walk step.
  all: first [apply sameBooks_getHistoricalData | apply sameBooks_sendSnapshotToClient].
Qed.

Lemma sameBooks_keeps {A} (m : M State A) :
  preserves sameBooks m → preserves (keepsSorted ps) m.
Proof. intros Hm st H symbol book. rewrite (Hm st). apply H. Qed.

Lemma sortedReplicas_insert st st' symbol book :
  orderBooks st' = <[symbol := book]> (orderBooks st) →
  sortedBook book → pricesWithin ps book →
  sortedReplicas ps st → sortedReplicas ps st'.
Proof.
  intros Heq Hs Hp H symbol' book'. rewrite Heq.
  destruct (decide (symbol = symbol')) as [<-|Hne].
  - rewrite lookup_insert_eq. by intros [= <-].
  - rewrite lookup_insert_ne by done. apply H.
Qed.

Lemma onDepthMessage_sorted symbol msg now :
  canonical ps → wellFormed ps (depth_message symbol msg) →
  preserves (keepsSorted ps) (onDepthMessage symbol msg now).
Proof.
  intros Hc Hev. unfold onDepthMessage.
  apply (preserves_try_catch _); [|intros err; apply sameBooks_keeps; walk step].
  destruct msg as [|data]; [apply (preserves_throw _)|].
  destruct (negb _); [apply (preserves_ret _)|].
  apply (preserves_get_bind _). intros st H.
  destruct (orderBooks st !! symbol) as [book|] eqn:Hbook; [|exact H].
  rewrite bind_modify.
  destruct (H symbol book Hbook) as [Hs Hp].
  destruct (_ && _).
  - rewrite bind_modify. cbv zeta.
    apply (sameBooks_keeps _ (sameBooks_broadcastLiveUpdate symbol data now)).
    destruct (applyDeltas_sorted ps book (DepthUpdate.b data) (DepthUpdate.a data))
      as [Hs' Hp']; [done..|].
    eapply sortedReplicas_insert; [reflexivity| | |exact H].
    + by destruct Hs'.
    + exact Hp'.
  - destruct (_ >? _); exact H.
Qed.

Lemma resetOrderBook_completed_sorted request data now :
  wellFormed ps (response 0 data) →
  preserves (keepsSorted ps) (_resetOrderBook_completed request data now).
Proof.
  intros Hev. unfold _resetOrderBook_completed. cbv zeta.
  apply (preserves_bind _).
  - destruct data as [data|].
    + apply (preserves_modify _). intros st H. destruct Hev as [Hs Hp].
      eapply sortedReplicas_insert; [reflexivity| | |exact H].
      * by destruct data.
      * by destruct data.
    + apply sameBooks_keeps. walk step.
  - intros _. apply sameBooks_keeps. destruct (andThen request).
    + apply (preserves_ret _).
    + apply sameBooks_broadcastResync.
Qed.

Lemma dispatch_sorted now ev :
  canonical ps → wellFormed ps ev →
  preserves (keepsSorted ps) (dispatch now ev).
Proof.
  intros Hc Hev. unfold dispatch. apply (preserves_get_bind _). intros st.
  destruct ev as [symbolParam limitParam|c|c err|symbol msg|k data|k|].
  - apply (preserves_at _), sameBooks_keeps.
    apply (preserves_bind _); [apply (preserves_modify _); by intros ?|]. intros _.
    apply (preserves_bind _); [apply (preserves_modify _); by intros ?|]. intros _.
    apply sameBooks_handleClient.
  - apply (preserves_at _), sameBooks_keeps.
    apply (preserves_bind _); [|intros _]; apply (preserves_modify _); by intros ?.
  - apply (preserves_at _), sameBooks_keeps. apply (preserves_modify _). by intros ?.
  - by apply (preserves_at _), onDepthMessage_sorted.
  - destruct (requests st !! k) as [request|]; [|reflexivity].
    apply (preserves_at _).
    apply (preserves_bind _); [apply sameBooks_keeps, (preserves_modify _); by intros ?|].
    intros _. by apply resetOrderBook_completed_sorted.
  - destruct (timers st !! k) as [timer|]; [|reflexivity].
    apply (preserves_at _), sameBooks_keeps.
    apply (preserves_bind _); [apply (preserves_modify _); by intros ?|]. intros _.
    destruct timer.
    + apply sameBooks_resetOrderBook.
    + apply sameBooks_sendSnapshotToClient.
    + apply sameBooks_commit.
  - apply (preserves_at _), sameBooks_keeps, (preserves_forEach _). intros symbol.
    apply (preserves_bind _); [apply (preserves_get _)|]. intros st'.
    destruct (orderBooks st' !! symbol); [apply sameBooks_saveSnapshot|apply (preserves_ret _)].
Qed.

(** While the exchange sends sorted snapshots, with prices that read as
    finite numbers and never two strings for one double, every replica of
    the running service is sorted. *)
Lemma replicas_sorted symbolList files events symbol book :
  canonical ps →
  Forall (λ e, wellFormed ps e.2) events →
  orderBooks (exec (run events) (init symbolList files)) !! symbol = Some book →
  sortedBook book.
Proof.
  intros Hc Hev.
  assert (sortedReplicas ps (init symbolList files)) as Hinit by (intros ? ? H; done).
  revert Hinit. generalize (init symbolList files).
  unfold exec, run. induction Hev as [|[now ev] events Hev Hevs IH]; intros st H Hbook.
  - by apply (H symbol book).
  - simpl in Hbook. unfold bind at 1 in Hbook.
    pose proof (dispatch_sorted now ev Hc Hev st H) as Hstep.
    destruct (dispatch now ev st) as [[[]|err] st1]; simpl in *.
    + by apply (IH st1).
    + by apply (Hstep symbol book).
Qed.
End SortedReplicas.

(** ** Broadcasts *)

Ltac handler_unfold :=
  unfold exec, outcome, bind, ret, get, modify, throw, try_catch, console_write in *.

Section Delivery.
Implicit Types (st : State) (message : Message) (l : list nat).

Lemma send_delivered client message st ws :
  sockets st !! client = Some ws →
  send client message st =
    (match WS.sendError ws with Some err => Throws err | None => Returns tt end,
     set_sockets (alter (delivered message) client) st).
Proof.
  intros Hws. unfold send. rewrite Hws.
  assert (alter (delivered message) client (sockets st) =
          <[client := delivered message ws]> (sockets st)) as Halter.
  { apply map_eq. intros i. destruct (decide (client = i)) as [->|Hne].
    - by rewrite lookup_alter_eq, lookup_insert_eq, Hws.
    - by rewrite lookup_alter_ne, lookup_insert_ne. }
  destruct (WS.sendError ws) eqn:Herr.
  - f_equal. unfold set_sockets. rewrite Halter.
    assert (delivered message ws = ws) as -> by (unfold delivered; by rewrite Herr).
    rewrite insert_id by done. by destruct st.
  - f_equal. unfold set_sockets. rewrite Halter. unfold delivered. by rewrite Herr.
Qed.

Lemma send_missing client message st :
  sockets st !! client = None →
  ∃ err, send client message st = (Throws err, set_sockets (alter (delivered message) client) st).
Proof.
  intros Hws. unfold send. rewrite Hws. eexists. f_equal.
  unfold set_sockets.
  assert (alter (delivered message) client (sockets st) = sockets st) as ->.
  { apply map_eq. intros i. destruct (decide (client = i)) as [->|Hne].
    - by rewrite lookup_alter_eq, Hws.
    - by rewrite lookup_alter_ne. }
  by destruct st.
Qed.

Lemma try_send client message (onError : string → Console) st :
  ∃ entries,
    Forall (λ entry, ∃ err, entry = onError err) entries ∧
    try_catch (send client message) (λ err, console_write (onError err)) st =
    (Returns tt,
     set_console (λ c, c ++ entries)
       (set_sockets (alter (delivered message) client) st)).
Proof.
  unfold try_catch, console_write, modify.
  destruct (sockets st !! client) as [ws|] eqn:Hws.
  - rewrite (send_delivered _ _ _ ws Hws). destruct (WS.sendError ws) as [err|].
    + exists [onError err]. split; [constructor; eauto|done].
    + exists []. split; [constructor|]. f_equal.
      destruct st; unfold set_console, set_sockets; simpl. by rewrite app_nil_r.
  - destruct (send_missing client message st Hws) as (err & ->).
    exists [onError err]. split; [constructor; eauto|done].
Qed.

Lemma forEach_send l message (onError : string → Console) st :
  ∃ entries,
    Forall (λ entry, ∃ err, entry = onError err) entries ∧
    forEach l (λ client,
      try_catch (send client message) (λ err, console_write (onError err))) st =
    (Returns tt,
     set_console (λ c, c ++ entries) (set_sockets (deliverAll message l) st)).
Proof.
  revert st. induction l as [|client l IH]; intros st.
  - exists []. split; [constructor|]. simpl. unfold ret. f_equal.
    destruct st; unfold set_console, set_sockets, deliverAll; simpl. by rewrite app_nil_r.
  - simpl. unfold bind at 1.
    destruct (try_send client message onError st) as (e1 & He1 & ->).
    destruct (IH (set_console (λ c, c ++ e1)
                    (set_sockets (alter (delivered message) client) st)))
      as (e2 & He2 & ->).
    exists (e1 ++ e2). split; [by apply Forall_app|].
    f_equal. destruct st; unfold set_console, set_sockets, deliverAll; simpl.
    by rewrite <- app_assoc.
Qed.



Lemma lookup_deliverAll message l socks client :
  NoDup l →
  deliverAll message l socks !! client =
    if decide (client ∈ l) then delivered message <$> socks !! client
    else socks !! client.
Proof.
  unfold deliverAll. revert socks. induction l as [|c l IH]; intros socks Hnd.
  - simpl. destruct (decide (client ∈ [])) as [Hin|_]; [by apply elem_of_nil in Hin|done].
  - apply NoDup_cons in Hnd as [Hc Hnd]. cbn [foldl]. rewrite IH by done.
    destruct (decide (client = c)) as [->|Hne].
    + rewrite lookup_alter_eq. repeat case_decide; try done.
      exfalso. by apply H0; left.
    + rewrite lookup_alter_ne by done. repeat case_decide; try done.
      * exfalso. apply H0. by right.
      * exfalso. apply elem_of_cons in H0 as [?|?]; done.
Qed.

Lemma elem_of_receivers st symbol client :
  client ∈ receivers st symbol ↔ client ∈ clients st ∧ subscribed st symbol client = true.
Proof.
  unfold receivers. rewrite list_elem_of_In, filter_In, <- list_elem_of_In, elem_of_elements.
  done.
Qed.

Lemma NoDup_receivers st symbol : NoDup (receivers st symbol).
Proof.
  unfold receivers. apply NoDup_ListNoDup, List.NoDup_filter, NoDup_ListNoDup, NoDup_elements.
Qed.

(** The sockets after a broadcast, socket by socket. *)
Lemma lookup_broadcast st symbol message client :
  deliverAll message (receivers st symbol) (sockets st) !! client =
    if decide (client ∈ clients st) then
      if subscribed st symbol client then delivered message <$> sockets st !! client
      else sockets st !! client
    else sockets st !! client.
Proof.
  rewrite lookup_deliverAll by apply NoDup_receivers.
  destruct (decide (client ∈ receivers st symbol)) as [Hin|Hnin].
  - apply elem_of_receivers in Hin as [Hc Hs]. by rewrite decide_True, Hs.
  - destruct (decide (client ∈ clients st)) as [Hc|Hc]; [|done].
    destruct (subscribed st symbol client) eqn:Hs; [|done].
    exfalso. apply Hnin, elem_of_receivers. done.
Qed.
End Delivery.

Section Broadcasts.
Implicit Types (st : State) (symbol : string).

Lemma broadcastLiveUpdate_run symbol data now st :
  ∃ entries,
    Forall (λ entry, ∃ err, entry = error_client_send symbol err) entries ∧
    _broadcastLiveUpdate symbol data now st =
    (Returns tt,
     if (length (receivers st symbol) =? 0)%nat then st
     else set_updateCounter (increment symbol)
            (set_console (λ c, c ++ entries)
               (set_sockets
                  (deliverAll (depth_update symbol data now) (receivers st symbol)) st))).
Proof.
  unfold _broadcastLiveUpdate, bind at 1, get. fold (receivers st symbol).
  destruct (length (receivers st symbol) =? 0)%nat.
  - exists []. split; [constructor|done].
  - unfold bind.
    destruct (forEach_send (receivers st symbol) (depth_update symbol data now)
                (error_client_send symbol) st) as (entries & Hentries & ->).
    by exists entries.
Qed.

Lemma broadcastResync_run symbol now st :
  ∃ entries,
    Forall (λ entry, ∃ err, entry = error_resync_send symbol err) entries ∧
    _broadcastResync symbol now st =
    (Returns tt,
     if (length (receivers st symbol) =? 0)%nat then st
     else set_console (λ c, c ++ entries)
            (set_sockets
               (deliverAll (resync (orderBooks st !! symbol) now) (receivers st symbol)) st)).
Proof.
  unfold _broadcastResync, bind at 1, get. fold (receivers st symbol).
  destruct (length (receivers st symbol) =? 0)%nat.
  - exists []. split; [constructor|done].
  - destruct (forEach_send (receivers st symbol) (resync (orderBooks st !! symbol) now)
                (error_resync_send symbol) st) as (entries & Hentries & ->).
    by exists entries.
Qed.


Lemma receivers_nil_deliverAll st symbol message :
  (length (receivers st symbol) =? 0)%nat = true →
  deliverAll message (receivers st symbol) (sockets st) = sockets st.
Proof.
  intros H. apply Nat.eqb_eq, length_zero_iff_nil in H. by rewrite H.
Qed.
End Broadcasts.

(** ** The depth stream *)

Lemma onDepthMessage_run symbol data now st book :
  orderBooks st !! symbol = Some book →
  DepthUpdate.e data = "depthUpdate" →
  onDepthMessage symbol (parsed data) now st =
    let st1 := set_binanceUpdateCounter (increment symbol) st in
    if (DepthUpdate.U data <=? lastUpdateId book + 1) &&
       (DepthUpdate.u data >=? lastUpdateId book + 1)
    then
      let applied := _applyDeltas book (DepthUpdate.b data) (DepthUpdate.a data) in
      _broadcastLiveUpdate symbol data now
        (set_orderBooks (insert symbol
           (mkBook (DepthUpdate.u data) (bids applied) (asks applied))) st1)
    else if DepthUpdate.U data >? lastUpdateId book + 1 then
      (Returns tt,
       set_requests (λ r, r ++ [mkRequest symbol broadcastResync])
         (set_console
            (λ c, c ++ [warn_out_of_sync symbol (lastUpdateId book + 1) (DepthUpdate.U data)])
            st1))
    else (Returns tt, st1).
Proof.
  intros Hbook He. unfold onDepthMessage, try_catch. rewrite He.
  change (negb ("depthUpdate" =? "depthUpdate")%string) with false. cbv iota.
  unfold bind at 1, get. rewrite Hbook.
  unfold bind at 1, modify at 1.
  destruct ((DepthUpdate.U data <=? lastUpdateId book + 1) &&
            (DepthUpdate.u data >=? lastUpdateId book + 1)).
  - unfold bind at 1, modify at 1. cbv zeta.
    destruct (broadcastLiveUpdate_run symbol data now
      (set_orderBooks (insert symbol
         (mkBook (DepthUpdate.u data)
            (bids (_applyDeltas book (DepthUpdate.b data) (DepthUpdate.a data)))
            (asks (_applyDeltas book (DepthUpdate.b data) (DepthUpdate.a data)))))
         (set_binanceUpdateCounter (increment symbol) st))) as (entries & _ & ->).
    done.
  - destruct (DepthUpdate.U data >? lastUpdateId book + 1); reflexivity.
Qed.

(** Claim C1.  For a tracked symbol with replica [book] and a depth delta
    arriving for it: when [U <= lastUpdateId + 1 <= u], the replica
    becomes the book with the changes of the delta applied and with
    [lastUpdateId = u]; otherwise every replica is left exactly as it
    was.  So the changes are applied if and only if the delta is
    continuous. *)
Theorem delta_applied_iff_continuous (st : State) (symbol : string)
    (data : DepthUpdate.t) (now : Z) (book : Book) :
  orderBooks st !! symbol = Some book →
  DepthUpdate.e data = "depthUpdate" →
  let st' := exec (onDepthMessage symbol (parsed data) now) st in
  let continuous :=
    DepthUpdate.U data ≤ lastUpdateId book + 1 ≤ DepthUpdate.u data in
  let applied := _applyDeltas book (DepthUpdate.b data) (DepthUpdate.a data) in
  (continuous →
     orderBooks st' =
       <[symbol := mkBook (DepthUpdate.u data) (bids applied) (asks applied)]>
         (orderBooks st)) ∧
  (¬ continuous → orderBooks st' = orderBooks st).
Proof.
  intros Hbook He st' continuous applied. subst st'. unfold exec.
  rewrite (onDepthMessage_run symbol data now st book Hbook He). cbv zeta.
  destruct (Z.leb_spec (DepthUpdate.U data) (lastUpdateId book + 1)) as [HU|HU];
    destruct (Z.geb_spec (DepthUpdate.u data) (lastUpdateId book + 1)) as [Hu|Hu];
    cbn [andb].
  1: { destruct (broadcastLiveUpdate_run symbol data now
         (set_orderBooks (insert symbol
            (mkBook (DepthUpdate.u data) (bids applied) (asks applied)))
            (set_binanceUpdateCounter (increment symbol) st))) as (entries & _ & Hrun).
       fold applied. rewrite Hrun.
       split; [|intros Hn; exfalso; apply Hn; unfold continuous; lia].
       intros _. cbn [snd]. by destruct (length _ =? 0)%nat. }
  all: split; [intros Hc; unfold continuous in Hc; lia|intros _].
  all: by destruct (DepthUpdate.U data >? lastUpdateId book + 1).
Qed.

(** Claim C1 on the delta 101..102 arriving after the snapshot 100. *)
Lemma delta_applied_witness :
  orderBooks started !! "BTCUSDT" = Some book100 ∧
  DepthUpdate.e (delta 101 102) = "depthUpdate" ∧
  101 ≤ lastUpdateId book100 + 1 ≤ 102 ∧
  orderBooks (exec (onDepthMessage "BTCUSDT" (parsed (delta 101 102)) 3000) started) =
    <["BTCUSDT" := mkBook 102
        [mkLevel "10.00" "1.5"; mkLevel "9.75" "4"]
        [mkLevel "10.50" "2"; mkLevel "11.00" "3"]]> (orderBooks started).
Proof.
  assert (orderBooks started !! "BTCUSDT" = Some book100) as Hbook by (vm_compute; reflexivity).
  assert (101 ≤ lastUpdateId book100 + 1 ≤ 102) as Hc by (simpl; lia).
  split; [exact Hbook|]. split; [reflexivity|]. split; [exact Hc|].
  exact (proj1 (delta_applied_iff_continuous started "BTCUSDT" (delta 101 102) 3000 book100
                  Hbook eq_refl) Hc).
Defined.

(** ** Sockets that fail *)

Lemma lookup_broadcast_reachable st symbol message client ws :
  sockets st !! client = Some ws →
  deliverAll message (receivers st symbol) (sockets st) !! client =
    Some (if decide (reachable st symbol client ws) then received message ws else ws).
Proof.
  intros Hws. rewrite lookup_broadcast. unfold subscribed. rewrite Hws. simpl.
  destruct (decide (reachable st symbol client ws)) as [(Hc & Hs & Hr & He)|Hn].
  - destruct (decide (client ∈ clients st)) as [_|Hc']; [|done].
    rewrite (bool_decide_eq_true_2 _ Hs), (bool_decide_eq_true_2 _ Hr). simpl.
    unfold delivered, received. by rewrite He.
  - destruct (decide (client ∈ clients st)) as [Hc|Hc]; [|done].
    destruct (bool_decide (WS.symbol ws = Some symbol)) eqn:Hs; [|done].
    destruct (bool_decide (WS.readyState ws = OPEN)) eqn:Hr; [|done].
    simpl. unfold delivered. destruct (WS.sendError ws) eqn:He; [done|].
    apply bool_decide_eq_true in Hs. apply bool_decide_eq_true in Hr.
    exfalso. by apply Hn.
Qed.




(** The same for [_broadcastResync]. *)
Lemma resync_isolates_failures (st : State) (symbol : string) (now : Z) :
  let st' := exec (_broadcastResync symbol now) st in
  outcome (_broadcastResync symbol now) st = Returns tt ∧
  clients st' = clients st ∧ orderBooks st' = orderBooks st ∧
  requests st' = requests st ∧ timers st' = timers st ∧
  ∀ client ws, sockets st !! client = Some ws →
    sockets st' !! client =
      Some (if decide (reachable st symbol client ws)
            then received (resync (orderBooks st !! symbol) now) ws else ws).
Proof.
  intros st'. subst st'. unfold exec, outcome.
  destruct (broadcastResync_run symbol now st) as (entries & _ & ->).
  cbn [fst snd]. split; [done|].
  destruct (length (receivers st symbol) =? 0)%nat eqn:Hn.
  - repeat (split; [done|]). intros client ws Hws.
    rewrite <- (receivers_nil_deliverAll st symbol (resync (orderBooks st !! symbol) now) Hn).
    by apply lookup_broadcast_reachable.
  - repeat (split; [done|]). intros client ws Hws. cbn. by apply lookup_broadcast_reachable.
Qed.

(** ** Stale deltas and gaps *)

(** Claim C3.  A delta with [u < lastUpdateId + 1] for a tracked symbol is
    dropped: the handler returns, the replicas are unchanged, no socket
    gets any message and nothing is written to the error log.  For a
    delta with [U <= u] the only trace is the counter of received
    updates. *)
Theorem stale_delta_is_noop (st : State) (symbol : string) (data : DepthUpdate.t)
    (now : Z) (book : Book) :
  orderBooks st !! symbol = Some book →
  DepthUpdate.e data = "depthUpdate" →
  DepthUpdate.u data < lastUpdateId book + 1 →
  let st' := exec (onDepthMessage symbol (parsed data) now) st in
  outcome (onDepthMessage symbol (parsed data) now) st = Returns tt ∧
  orderBooks st' = orderBooks st ∧
  sockets st' = sockets st ∧
  List.filter isError (console st') = List.filter isError (console st) ∧
  (DepthUpdate.U data ≤ DepthUpdate.u data →
     st' = set_binanceUpdateCounter (increment symbol) st).
Proof.
  intros Hbook He Hstale st'. subst st'. unfold exec, outcome.
  rewrite (onDepthMessage_run symbol data now st book Hbook He). cbv zeta.
  destruct (Z.geb_spec (DepthUpdate.u data) (lastUpdateId book + 1)) as [Hu|_]; [lia|].
  rewrite andb_false_r.
  destruct (Z.gtb_spec (DepthUpdate.U data) (lastUpdateId book + 1)) as [HU|HU]; cbn [fst snd].
  - repeat (split; [done|]). split; [|lia].
    cbn. rewrite List.filter_app. cbn. by rewrite app_nil_r.
  - done.
Qed.

(** Claim C3 on the delta 90..95 arriving after the snapshot 100. *)
Lemma stale_delta_witness :
  orderBooks started !! "BTCUSDT" = Some book100 ∧
  DepthUpdate.e (delta 90 95) = "depthUpdate" ∧
  95 < lastUpdateId book100 + 1 ∧
  orderBooks (exec (onDepthMessage "BTCUSDT" (parsed (delta 90 95)) 3000) started) =
    orderBooks started ∧
  sockets (exec (onDepthMessage "BTCUSDT" (parsed (delta 90 95)) 3000) started) =
    sockets started.
Proof.
  assert (orderBooks started !! "BTCUSDT" = Some book100) as Hbook by (vm_compute; reflexivity).
  assert (95 < lastUpdateId book100 + 1) as Hstale by (simpl; lia).
  split; [exact Hbook|]. split; [reflexivity|]. split; [exact Hstale|].
  destruct (stale_delta_is_noop started "BTCUSDT" (delta 90 95) 3000 book100
              Hbook eq_refl Hstale) as (_ & Hbooks & Hsockets & _).
  split; [exact Hbooks|exact Hsockets].
Defined.

(** Claim C8, amended.  The service keeps no record of a
    resynchronisation in flight: every delta with [U > lastUpdateId + 1]
    starts a snapshot request of its own, whatever requests are already
    pending, and leaves the replica as it is. *)
Theorem every_gap_starts_a_fetch (st : State) (symbol : string) (data : DepthUpdate.t)
    (now : Z) (book : Book) :
  orderBooks st !! symbol = Some book →
  DepthUpdate.e data = "depthUpdate" →
  DepthUpdate.U data > lastUpdateId book + 1 →
  let st' := exec (onDepthMessage symbol (parsed data) now) st in
  requests st' = requests st ++ [mkRequest symbol broadcastResync] ∧
  orderBooks st' = orderBooks st.
Proof.
  intros Hbook He Hgap st'. subst st'. unfold exec.
  rewrite (onDepthMessage_run symbol data now st book Hbook He). cbv zeta.
  destruct (Z.leb_spec (DepthUpdate.U data) (lastUpdateId book + 1)) as [HU|_]; [lia|].
  cbn [andb].
  destruct (Z.gtb_spec (DepthUpdate.U data) (lastUpdateId book + 1)) as [_|HU]; [|lia].
  done.
Qed.

(** Claim C8, amended, on the delta 105..110 arriving after the snapshot
    100. *)
Lemma gap_fetch_witness :
  orderBooks started !! "BTCUSDT" = Some book100 ∧
  DepthUpdate.e (delta 105 110) = "depthUpdate" ∧
  105 > lastUpdateId book100 + 1 ∧
  requests (exec (onDepthMessage "BTCUSDT" (parsed (delta 105 110)) 3000) started) =
    requests started ++ [mkRequest "BTCUSDT" broadcastResync].
Proof.
  assert (orderBooks started !! "BTCUSDT" = Some book100) as Hbook by (vm_compute; reflexivity).
  assert (105 > lastUpdateId book100 + 1) as Hgap by (simpl; lia).
  split; [exact Hbook|]. split; [reflexivity|]. split; [exact Hgap|].
  exact (proj1 (every_gap_starts_a_fetch started "BTCUSDT" (delta 105 110) 3000 book100
                  Hbook eq_refl Hgap)).
Defined.

(** Claim C8 fails as stated: two gap deltas in a row leave two snapshot
    requests pending. *)
Lemma gaps_are_not_coalesced :
  let st := exec (run [(3000, depth_message "BTCUSDT" (parsed (delta 105 110)));
                       (3100, depth_message "BTCUSDT" (parsed (delta 111 112)))]) started in
  requests st = [mkRequest "BTCUSDT" broadcastResync; mkRequest "BTCUSDT" broadcastResync] ∧
  ¬ (length (requests st) ≤ 1)%nat.
Proof. split; [by vm_compute|]. vm_compute. lia. Qed.

(** What a gap does at once: the replica and the sockets are untouched,
    the gap is logged and a snapshot is requested, to be followed by a
    resync. *)
Lemma gap_detected (st : State) (symbol : string) (data : DepthUpdate.t)
    (now : Z) (book : Book) :
  orderBooks st !! symbol = Some book →
  DepthUpdate.e data = "depthUpdate" →
  DepthUpdate.U data > lastUpdateId book + 1 →
  let st' := exec (onDepthMessage symbol (parsed data) now) st in
  orderBooks st' = orderBooks st ∧
  sockets st' = sockets st ∧
  console st' =
    console st ++ [warn_out_of_sync symbol (lastUpdateId book + 1) (DepthUpdate.U data)] ∧
  requests st' = requests st ++ [mkRequest symbol broadcastResync].
Proof.
  intros Hbook He Hgap st'. subst st'. unfold exec.
  rewrite (onDepthMessage_run symbol data now st book Hbook He). cbv zeta.
  destruct (Z.leb_spec (DepthUpdate.U data) (lastUpdateId book + 1)) as [HU|_]; [lia|].
  cbn [andb].
  destruct (Z.gtb_spec (DepthUpdate.U data) (lastUpdateId book + 1)) as [_|HU]; [|lia].
  done.
Qed.

Lemma dispatch_response st k request data now :
  requests st !! k = Some request →
  dispatch now (response k data) st =
    _resetOrderBook_completed request data now (set_requests (delete k) st).
Proof. intros H. unfold dispatch, bind, get. by rewrite H. Qed.

Lemma resetOrderBook_completed_snapshot symbol continuation data now st :
  _resetOrderBook_completed (mkRequest symbol continuation) (Some data) now st =
    match continuation with
    | broadcastResync => _broadcastResync symbol now
    | nothing => ret tt
    end (set_orderBooks (insert symbol data) st).
Proof. by destruct data. Qed.

(** When the request made on a gap completes with a snapshot, the
    snapshot replaces the replica and every reachable subscriber of the
    symbol gets a resync carrying it. *)
Lemma resync_after_fetch (st : State) (k : nat) (symbol : string) (fresh : Book) (now : Z) :
  requests st !! k = Some (mkRequest symbol broadcastResync) →
  let st' := exec (dispatch now (response k (Some fresh))) st in
  orderBooks st' = <[symbol := fresh]> (orderBooks st) ∧
  requests st' = delete k (requests st) ∧
  ∀ client ws, sockets st !! client = Some ws →
    sockets st' !! client =
      Some (if decide (reachable st symbol client ws)
            then received (resync (Some fresh) now) ws else ws).
Proof.
  intros Hreq st'. subst st'. unfold exec.
  rewrite (dispatch_response _ _ _ _ _ Hreq), resetOrderBook_completed_snapshot.
  set (st1 := set_orderBooks _ _).
  destruct (resync_isolates_failures st1 symbol now) as (_ & Hc & Hb & Hr & _ & Hs).
  unfold exec in *. rewrite Hb, Hr.
  split; [done|]. split; [done|].
  intros client ws Hws. rewrite (Hs client ws) by done.
  subst st1. cbn [orderBooks set_orderBooks set_requests]. by rewrite lookup_insert_eq.
Qed.

(** Claim C2, where the code departs from it.  A gap is detected while one
    subscriber listens; the snapshot call fails, is retried five seconds
    later and then succeeds with the book 110.  The subscriber got one
    resync, sent when the call failed and carrying the old book 100; the
    success of the retry replaced the replica and sent nothing. *)
Theorem resync_lost_when_fetch_is_retried :
  outboxOf retriedFetch 0 = [live_snapshot book100 2000; resync (Some book100) 3200] ∧
  orderBooks retriedFetch !! "BTCUSDT" = Some book110 ∧
  requests retriedFetch = [] ∧ timers retriedFetch = [].
Proof. vm_compute. done. Qed.

(** ** What one subscriber sees *)

Section Follows.
Context (client : nat).
Implicit Types (st : State).

Global Instance follows_preorder : PreOrder (follows client).
Proof.
  split.
  - intros st Hin. split; [done|]. exists []. rewrite app_nil_r. simpl.
    split; [done|]. split; [constructor|lia].
  - intros st1 st2 st3 H12 H23 Hin.
    destruct (H12 Hin) as (Hin2 & new1 & Ho1 & Hl1 & Hc1).
    destruct (H23 Hin2) as (Hin3 & new2 & Ho2 & Hl2 & Hc2).
    split; [done|]. exists (new1 ++ new2).
    rewrite Ho2, Ho1, app_assoc. split; [done|]. split; [by apply Forall_app|].
    rewrite List.filter_app, length_app. lia.
Qed.

Lemma follows_assume st st' :
  (is_Some (sockets st !! client) → follows client st st') → follows client st st'.
Proof. intros H Hin. by apply H. Qed.

(** A change that leaves the socket and the timers alone. *)
Lemma follows_same st st' :
  sockets st' !! client = sockets st !! client →
  timers st' = timers st →
  follows client st st'.
Proof.
  intros Hs Ht Hin. rewrite Hs. split; [done|]. exists [].
  unfold outboxOf, pendingSnapshots. rewrite Hs, Ht, app_nil_r. simpl.
  split; [done|]. split; [constructor|lia].
Qed.

Lemma follows_timers st f :
  (length (List.filter (snapshotTimerFor client) (f (timers st))) ≤
   length (List.filter (snapshotTimerFor client) (timers st)))%nat →
  follows client st (set_timers f st).
Proof.
  intros Hle Hin. split; [done|]. exists [].
  unfold outboxOf, pendingSnapshots. rewrite app_nil_r. simpl.
  split; [done|]. split; [constructor|lia].
Qed.

Lemma follows_timer_added st t :
  snapshotTimerFor client t = false →
  follows client st (set_timers (λ ts, ts ++ [t]) st).
Proof.
  intros Ht. apply follows_timers. rewrite List.filter_app. simpl. rewrite Ht.
  by rewrite app_nil_r.
Qed.

Lemma filter_delete_length {A} (P : A → bool) (k : nat) (l : list A) :
  (length (List.filter P (delete k l)) ≤ length (List.filter P l))%nat.
Proof.
  revert k. induction l as [|x l IH]; intros [|k]; simpl; try lia.
  - destruct (P x); simpl; lia.
  - specialize (IH k). destruct (P x); simpl; lia.
Qed.

Lemma filter_delete_length_lt {A} (P : A → bool) (k : nat) (l : list A) x :
  l !! k = Some x → P x = true →
  (S (length (List.filter P (delete k l))) = length (List.filter P l))%nat.
Proof.
  revert k. induction l as [|y l IH]; intros [|k] Hk HP; simpl in *; try done.
  - injection Hk as ->. by rewrite HP.
  - specialize (IH k Hk HP). destruct (P y); simpl; lia.
Qed.

Lemma follows_timer_deleted st k :
  follows client st (set_timers (delete k) st).
Proof. apply follows_timers, filter_delete_length. Qed.

Lemma follows_socket_altered st c f :
  (∀ ws, WS.outbox (f ws) = WS.outbox ws) →
  follows client st (set_socket c f st).
Proof.
  intros Hf Hin. unfold set_socket, set_sockets, outboxOf, pendingSnapshots. simpl.
  destruct (decide (c = client)) as [->|Hne].
  - rewrite lookup_alter_eq. destruct Hin as [ws Hws]. rewrite Hws. simpl.
    split; [by eexists|]. exists []. rewrite app_nil_r, Hf.
    split; [done|]. split; [constructor|simpl; lia].
  - rewrite lookup_alter_ne by done. split; [done|]. exists []. rewrite app_nil_r.
    split; [done|]. split; [constructor|simpl; lia].
Qed.

Lemma follows_socket_inserted st c ws :
  sockets st !! c = None →
  follows client st (set_sockets (insert c ws) st).
Proof.
  intros Hc Hin. assert (c ≠ client) as Hne by (intros ->; rewrite Hc in Hin; by destruct Hin).
  apply follows_same; [|done..]. simpl. by rewrite lookup_insert_ne.
Qed.

(** A message handed to [send]: a live one that is no snapshot, or one
    for another socket. *)
Lemma preserves_send c message :
  c ≠ client ∨ (isLive message = true ∧ isLiveSnapshot message = false) →
  preserves (follows client) (send c message).
Proof.
  intros Hcase st. unfold send.
  destruct (sockets st !! c) as [ws|] eqn:Hws; [|reflexivity].
  destruct (WS.sendError ws) eqn:He; [reflexivity|]. simpl.
  destruct (decide (c = client)) as [->|Hne].
  - destruct Hcase as [?|[Hl Hs]]; [done|].
    intros _. unfold outboxOf, pendingSnapshots. simpl. rewrite lookup_insert_eq, Hws.
    split; [by eexists|]. exists [message]. simpl. rewrite Hs. simpl.
    split; [done|]. split; [by repeat constructor|lia].
  - apply follows_same; [|done]. simpl. by rewrite lookup_insert_ne.
Qed.
End Follows.

Section FollowsHandlers.
Context (client : nat).
Implicit Types (st : State) (symbol : string).

Lemma preserves_console_write entry : preserves (follows client) (console_write entry).
Proof. apply (preserves_modify _). intros st. by apply follows_same. Qed.

(** What is not a control structure, for [walk]. *)
Ltac step :=
  idtac;
  lazymatch goal with
  | |- preserves _ (console_write _) => apply preserves_console_write
  | |- preserves _ (send _ _) => apply preserves_send; first [by left | by right]
  | |- follows _ _ _ =>
      first [ by apply follows_same
            | by apply follows_socket_altered
            | apply follows_timer_added; simpl; first [done | by apply Nat.eqb_neq] ]
  end.

Lemma preserves_getHistoricalData symbol limit :
  preserves (follows client) (getHistoricalData symbol limit).
Proof. unfold getHistoricalData. walk step. Qed.

Lemma preserves_saveSnapshot symbol now :
  preserves (follows client) (_saveSnapshot symbol now).
Proof. unfold _saveSnapshot. walk step. Qed.

Lemma preserves_commit symbol now :
  preserves (follows client) (_commitHistoricalDataAsync symbol now).
Proof. unfold _commitHistoricalDataAsync. walk step. Qed.

Lemma preserves_resetOrderBook symbol continuation :
  preserves (follows client) (_resetOrderBook symbol continuation).
Proof. unfold _resetOrderBook. walk step. Qed.

Lemma preserves_broadcastLiveUpdate symbol data now :
  preserves (follows client) (_broadcastLiveUpdate symbol data now).
Proof. unfold _broadcastLiveUpdate. walk step. Qed.

Lemma preserves_broadcastResync symbol now :
  preserves (follows client) (_broadcastResync symbol now).
Proof. unfold _broadcastResync. walk step. Qed.

Lemma preserves_sendSnapshotToClient c symbol now :
  c ≠ client → preserves (follows client) (_sendSnapshotToClient c symbol now).
Proof. intros Hne. unfold _sendSnapshotToClient. walk step. Qed.

Lemma preserves_resetOrderBook_completed request data now :
  preserves (follows client) (_resetOrderBook_completed request data now).
Proof. unfold _resetOrderBook_completed. walk step. all: apply preserves_broadcastResync. Qed.

Lemma preserves_onDepthMessage symbol msg now :
  preserves (follows client) (onDepthMessage symbol msg now).
Proof.
  unfold onDepthMessage. walk step.
  all: first [apply preserves_broadcastLiveUpdate | apply preserves_resetOrderBook].
Qed.

Lemma preserves_handleClient ws symbolParam limitParam now :
  ws ≠ client →
  preserves (follows client) (_handleClient ws symbolParam limitParam now).
Proof.
  intros Hne. unfold _handleClient, ws_close. walk step.
  all: first [apply preserves_getHistoricalData | by apply preserves_sendSnapshotToClient].
Qed.

(** The snapshot timer of the socket fires. *)
Lemma follows_snapshot_timer st k symbol now :
  timers st !! k = Some (sendSnapshot client symbol) →
  follows client st (_sendSnapshotToClient client symbol now (set_timers (delete k) st)).2.
Proof.
  intros Hk Hin.
  pose proof (filter_delete_length_lt (snapshotTimerFor client) k (timers st) _ Hk) as Hlen.
  simpl in Hlen. rewrite Nat.eqb_refl in Hlen. specialize (Hlen eq_refl).
  unfold _sendSnapshotToClient, bind, get.
  cbn [orderBooks sockets set_timers].
  destruct (orderBooks st !! symbol) as [book|]; cycle 1.
  { simpl. split; [done|]. exists []. rewrite app_nil_r.
    split; [done|]. split; [constructor|].
    unfold pendingSnapshots. simpl. lia. }
  destruct Hin as [ws Hws]. rewrite Hws.
  destruct (bool_decide (WS.readyState ws = OPEN)); cycle 1.
  { simpl. split; [by eexists|]. exists []. rewrite app_nil_r.
    split; [done|]. split; [constructor|].
    unfold pendingSnapshots. simpl. lia. }
  destruct (try_send client (live_snapshot book now) (error_snapshot_send symbol)
              (set_timers (delete k) st)) as (entries & _ & ->).
  unfold outboxOf, pendingSnapshots. simpl. rewrite lookup_alter_eq, Hws. simpl.
  split; [by eexists|]. unfold delivered.
  destruct (WS.sendError ws).
  - exists []. rewrite app_nil_r. split; [done|]. split; [constructor|]. simpl. lia.
  - exists [live_snapshot book now]. split; [done|]. split; [by repeat constructor|].
    simpl. lia.
Qed.

Lemma preserves_dispatch now ev : preserves (follows client) (dispatch now ev).
Proof.
  unfold dispatch. apply (preserves_get_bind _). intros st.
  destruct ev as [symbolParam limitParam|c|c err|symbol msg|k data|k|].
  - apply follows_assume. intros Hin.
    assert (fresh (dom (sockets st)) ≠ client) as Hne.
    { intros Heq. apply elem_of_dom in Hin. rewrite <- Heq in Hin.
      by apply is_fresh in Hin. }
    rewrite bind_modify. etrans.
    + apply follows_socket_inserted. apply not_elem_of_dom. apply is_fresh.
    + apply (preserves_at _). walk step. by apply preserves_handleClient.
  - apply (preserves_at _). walk step.
  - apply (preserves_at _). walk step.
  - apply preserves_onDepthMessage.
  - destruct (requests st !! k) as [request|]; [|reflexivity].
    apply (preserves_at _). walk step. apply preserves_resetOrderBook_completed.
  - destruct (timers st !! k) as [timer|] eqn:Hk; [|reflexivity].
    rewrite bind_modify.
    destruct timer as [symbol|c symbol|symbol].
    + etrans; [apply follows_timer_deleted|apply preserves_resetOrderBook].
    + destruct (decide (c = client)) as [->|Hne].
      * by apply follows_snapshot_timer.
      * etrans; [apply follows_timer_deleted|by apply preserves_sendSnapshotToClient].
    + etrans; [apply follows_timer_deleted|apply preserves_commit].
  - apply (preserves_at _). walk step. apply preserves_saveSnapshot.
Qed.

Lemma preserves_run events : preserves (follows client) (run events).
Proof. unfold run. apply (preserves_forEach _). intros p. apply preserves_dispatch. Qed.
End FollowsHandlers.

(** ** The history store *)

Lemma StronglySorted_take {A} (R : relation A) (n : nat) (l : list A) :
  StronglySorted R l → StronglySorted R (take n l).
Proof.
  intros H. rewrite <- (take_drop n l) in H. by apply StronglySorted_app_1_l in H.
Qed.

Lemma StronglySorted_reverse {A} (R : relation A) (l : list A) :
  StronglySorted R l → StronglySorted (flip R) (reverse l).
Proof.
  induction 1 as [|x l Hl IH Hx]; [constructor|].
  rewrite reverse_cons. apply StronglySorted_app_2.
  - intros y z Hy Hz. apply list_elem_of_singleton in Hz as ->.
    rewrite elem_of_reverse in Hy. rewrite Forall_forall in Hx. unfold flip. by apply Hx.
  - exact IH.
  - repeat constructor.
Qed.

Lemma slice0_sorted {A} (R : relation A) (n : Z) (l : list A) :
  StronglySorted R l → StronglySorted R (slice0 n l).
Proof. intros H. unfold slice0. destruct (0 <=? n); by apply StronglySorted_take. Qed.

Lemma comesAfter_newestFirst x y :
  comesAfter newestFirst x y = (timestamp x <? timestamp y).
Proof.
  unfold comesAfter, newestFirst.
  rewrite isPositive_numSub by apply integer_onGrid.
  destruct (Z.ltb_spec (timestamp x) (timestamp y)) as [Hlt|Hge].
  - apply negb_true_iff. destruct (Qle_bool _ _) eqn:H; [|done].
    apply Qle_bool_iff in H. rewrite <- Zle_Qle in H. lia.
  - apply negb_false_iff, Qle_bool_iff. rewrite <- Zle_Qle. lia.
Qed.

Lemma arraySort_newestFirst l : newestFirstOrder (arraySort newestFirst l).
Proof.
  apply (arraySort_sorted newestFirst (λ _, True)).
  - intros x y _ _. rewrite comesAfter_newestFirst. intros H. apply Z.ltb_ge in H. lia.
  - intros x y _ _. rewrite comesAfter_newestFirst. intros H. apply Z.ltb_lt in H. lia.
  - intros x y z. lia.
  - by apply Forall_forall.
Qed.

Lemma set_console_nil st : set_console (λ c, c ++ []) st = st.
Proof. destruct st. unfold set_console. simpl. by rewrite app_nil_r. Qed.

(** The getter reads the history in memory and on disk, and writes to
    the console only. *)
Lemma getHistoricalData_frame symbol limit st st' :
  historicalData st' = historicalData st → disk st' = disk st →
  ∃ entries,
    getHistoricalData symbol limit st' =
      (outcome (getHistoricalData symbol limit) st, set_console (λ c, c ++ entries) st').
Proof.
  intros Hh Hd. unfold outcome, getHistoricalData. rewrite !bind_get, Hh, Hd.
  destruct (Z.of_nat (length (default [] (historicalData st !! symbol))) <? limit).
  - destruct (disk st !! symbol) as [[| |diskData]|].
    + by exists [error_reading_history symbol].
    + exists []. by rewrite set_console_nil.
    + exists []. by rewrite set_console_nil.
    + exists []. by rewrite set_console_nil.
  - exists []. by rewrite set_console_nil.
Qed.

Lemma getHistoricalData_returns symbol limit st :
  ∃ result,
    outcome (getHistoricalData symbol limit) st = Returns result ∧
    (0 ≤ limit → Z.of_nat (length result) ≤ limit) ∧
    (newestFirstOrder (default [] (historicalData st !! symbol)) →
     newestFirstOrder result).
Proof.
  unfold outcome, getHistoricalData. rewrite bind_get.
  set (inMemory := default [] (historicalData st !! symbol)).
  assert (∀ l, (newestFirstOrder inMemory → newestFirstOrder l) →
    (0 ≤ limit → Z.of_nat (length (slice0 limit l)) ≤ limit) ∧
    (newestFirstOrder inMemory → newestFirstOrder (slice0 limit l))) as Hslice.
  { intros l Hl. split; [apply slice0_length|]. intros H. by apply slice0_sorted, Hl. }
  destruct (Z.of_nat (length inMemory) <? limit).
  - destruct (disk st !! symbol) as [[| |diskData]|]; cbn; eexists; (split; [reflexivity|]);
      apply Hslice; try done.
    intros _. apply arraySort_newestFirst.
  - cbn. eexists. split; [reflexivity|]. by apply Hslice.
Qed.

(** Claim C7, amended.  For a count [limit >= 0] and a history kept newest
    first in memory, [getHistoricalData] returns without throwing, with
    at most [limit] snapshots, ordered newest first (its caller reverses
    them).  They are the [limit] newest in memory when memory holds that
    many, and all of memory when it holds fewer and no history file can
    be read. *)
Theorem getHistoricalData_newest_first (st : State) (symbol : string) (limit : Z) :
  0 ≤ limit →
  newestFirstOrder (default [] (historicalData st !! symbol)) →
  let inMemory := default [] (historicalData st !! symbol) in
  ∃ result,
    outcome (getHistoricalData symbol limit) st = Returns result ∧
    Z.of_nat (length result) ≤ limit ∧
    newestFirstOrder result ∧
    (limit ≤ Z.of_nat (length inMemory) → result = take (Z.to_nat limit) inMemory) ∧
    (Z.of_nat (length inMemory) < limit →
       (∀ diskData, disk st !! symbol ≠ Some (snapshots diskData)) →
       result = inMemory).
Proof.
  intros Hlimit Hsorted inMemory. unfold outcome, getHistoricalData.
  rewrite bind_get. fold inMemory. fold inMemory in Hsorted.
  assert (slice0 limit inMemory = take (Z.to_nat limit) inMemory) as Hslice.
  { unfold slice0. by destruct (Z.leb_spec 0 limit); [|lia]. }
  destruct (Z.ltb_spec (Z.of_nat (length inMemory)) limit) as [Hfew|Henough].
  - assert (take (Z.to_nat limit) inMemory = inMemory) as Hall
      by (apply take_ge; lia).
    destruct (disk st !! symbol) as [[| |diskData]|] eqn:Hdisk; cbn.
    + exists (slice0 limit inMemory). repeat split; [by apply slice0_length|
        by apply slice0_sorted|lia|intros; congruence].
    + exists (slice0 limit inMemory). repeat split; [by apply slice0_length|
        by apply slice0_sorted|lia|intros; congruence].
    + eexists. split; [reflexivity|]. repeat split; [by apply slice0_length|
        apply slice0_sorted, arraySort_newestFirst|lia|].
      intros _ H. by destruct (H diskData).
    + exists (slice0 limit inMemory). repeat split; [by apply slice0_length|
        by apply slice0_sorted|lia|intros; congruence].
  - cbn. exists (slice0 limit inMemory). repeat split; [by apply slice0_length|
      by apply slice0_sorted|done|lia].
Qed.

(** Claim C7, amended, on two of the three recorded snapshots. *)
Lemma getHistoricalData_witness :
  0 ≤ 2 ∧
  newestFirstOrder (default [] (historicalData recorded !! "BTCUSDT")) ∧
  ∃ result,
    outcome (getHistoricalData "BTCUSDT" 2) recorded = Returns result ∧
    Z.of_nat (length result) ≤ 2 ∧
    newestFirstOrder result.
Proof.
  assert (0 ≤ 2) as H1 by lia.
  assert (newestFirstOrder (default [] (historicalData recorded !! "BTCUSDT"))) as H2.
  { unfold newestFirstOrder.
    let l := eval vm_compute in (default [] (historicalData recorded !! "BTCUSDT")) in
    change (StronglySorted (λ x y, timestamp y ≤ timestamp x) l).
    repeat constructor; simpl; lia. }
  split; [exact H1|]. split; [exact H2|].
  destruct (getHistoricalData_newest_first recorded "BTCUSDT" 2 H1 H2)
    as (result & Hr & Hlen & Hsorted & _).
  exists result. split; [exact Hr|]. split; [exact Hlen|exact Hsorted].
Defined.

(** Claim C7 fails as stated: asked for two of the three recorded
    snapshots, the getter returns those of 91000 and 61000, in that
    order. *)
Lemma history_newest_first_example :
  ∃ result,
    outcome (getHistoricalData "BTCUSDT" 2) recorded = Returns result ∧
    timestamp <$> result = [91000; 61000] ∧
    ¬ oldestFirstOrder result.
Proof.
  eexists. split; [vm_compute; reflexivity|]. split; [reflexivity|].
  intros H. apply StronglySorted_inv in H as [_ H].
  apply Forall_cons in H as [H _]. simpl in H. lia.
Qed.

Section SameHistory.
Implicit Types (st : State) (symbol : string).

Global Instance sameHistory_preorder : PreOrder sameHistory.
Proof. split; [by intros ?|]. intros st1 st2 st3 H12 H23. unfold sameHistory in *. congruence. Qed.

Lemma sameHistory_send c message : preserves sameHistory (send c message).
Proof.
  intros st. unfold send. destruct (sockets st !! c) as [ws|]; [|reflexivity].
  destruct (WS.sendError ws); reflexivity.
Qed.

Ltac step :=
  idtac;
  lazymatch goal with
  | |- preserves _ (send _ _) => apply sameHistory_send
  | |- preserves _ (console_write _) => apply (preserves_modify _); intros ?; reflexivity
  | |- sameHistory _ _ => reflexivity
  end.

Lemma sameHistory_getHistoricalData symbol limit :
  preserves sameHistory (getHistoricalData symbol limit).
Proof. unfold getHistoricalData. walk step. Qed.

Lemma sameHistory_commit symbol now :
  preserves sameHistory (_commitHistoricalDataAsync symbol now).
Proof. unfold _commitHistoricalDataAsync. walk step. Qed.

Lemma sameHistory_resetOrderBook symbol continuation :
  preserves sameHistory (_resetOrderBook symbol continuation).
Proof. unfold _resetOrderBook. walk step. Qed.

Lemma sameHistory_broadcastLiveUpdate symbol data now :
  preserves sameHistory (_broadcastLiveUpdate symbol data now).
Proof. unfold _broadcastLiveUpdate. walk step. Qed.

Lemma sameHistory_broadcastResync symbol now :
  preserves sameHistory (_broadcastResync symbol now).
Proof. unfold _broadcastResync. walk step. Qed.

Lemma sameHistory_sendSnapshotToClient c symbol now :
  preserves sameHistory (_sendSnapshotToClient c symbol now).
Proof. unfold _sendSnapshotToClient. walk step. Qed.

Lemma sameHistory_resetOrderBook_completed request data now :
  preserves sameHistory (_resetOrderBook_completed request data now).
Proof. unfold _resetOrderBook_completed. walk step. all: apply sameHistory_broadcastResync. Qed.

Lemma sameHistory_onDepthMessage symbol msg now :
  preserves sameHistory (onDepthMessage symbol msg now).
Proof.
  unfold onDepthMessage. walk step.
  all: first [apply sameHistory_broadcastLiveUpdate | apply sameHistory_resetOrderBook].
Qed.

Lemma sameHistory_handleClient ws symbolParam limitParam now :
  preserves sameHistory (_handleClient ws symbolParam limitParam now).
Proof.
  unfold _handleClient, ws_close. walk step.
  all: first [apply sameHistory_getHistoricalData | apply sameHistory_sendSnapshotToClient].
Qed.
End SameHistory.

Section HistoryOrder.
Implicit Types (st : State) (symbol : string).

Global Instance keepsHistoryUpTo_preorder t : PreOrder (keepsHistoryUpTo t).
Proof. split; [by intros ??|]. intros st1 st2 st3 H12 H23 H. by apply H23, H12. Qed.

Lemma sameHistory_keeps t {A} (m : M State A) :
  preserves sameHistory m → preserves (keepsHistoryUpTo t) m.
Proof. intros Hm st H symbol stored. rewrite (Hm st). apply H. Qed.

Lemma historyUpTo_mono t t' st : t ≤ t' → historyUpTo t st → historyUpTo t' st.
Proof.
  intros Ht H symbol stored Hs. destruct (H symbol stored Hs) as [Hsorted Hall].
  split; [done|]. eapply Forall_impl; [exact Hall|]. simpl. lia.
Qed.

Lemma saveSnapshot_history symbol now :
  preserves (keepsHistoryUpTo now) (_saveSnapshot symbol now).
Proof.
  intros st H. unfold _saveSnapshot. rewrite bind_get.
  destruct (orderBooks st !! symbol) as [book|]; [|exact H]. cbv zeta.
  destruct (historicalData st !! symbol) as [stored|] eqn:Hstored; [|exact H].
  rewrite bind_modify.
  set (snapshot := mkHistory now _).
  set (stored2 := if (200 <? _)%nat then _ else _).
  assert (historyUpTo now (set_historicalData (insert symbol stored2) st)) as H2.
  { destruct (H symbol stored Hstored) as [Hsorted Hall].
    assert (newestFirstOrder (snapshot :: stored) ∧
            Forall (λ h, timestamp h ≤ now) (snapshot :: stored)) as [Hs1 Ha1].
    { split.
      - constructor; [done|]. eapply Forall_impl; [exact Hall|]. done.
      - constructor; [simpl; lia|done]. }
    intros symbol' stored' Hs'. cbn in Hs'.
    destruct (decide (symbol = symbol')) as [<-|Hne].
    - rewrite lookup_insert_eq in Hs'. injection Hs' as <-. subst stored2.
      destruct (200 <? _)%nat; [|done]. split.
      + by apply slice0_sorted.
      + unfold slice0. destruct (0 <=? 200); by apply Forall_take.
    - rewrite lookup_insert_ne in Hs' by done. by apply (H symbol'). }
  by destruct (_ =? 0)%nat.
Qed.

Lemma dispatch_history now ev : preserves (keepsHistoryUpTo now) (dispatch now ev).
Proof.
  unfold dispatch. apply (preserves_get_bind _). intros st.
  destruct ev as [symbolParam limitParam|c|c err|symbol msg|k data|k|].
  - apply (preserves_at _), sameHistory_keeps.
    apply (preserves_bind _); [apply (preserves_modify _); by intros ?|]. intros _.
    apply (preserves_bind _); [apply (preserves_modify _); by intros ?|]. intros _.
    apply sameHistory_handleClient.
  - apply (preserves_at _), sameHistory_keeps.
    apply (preserves_bind _); [|intros _]; apply (preserves_modify _); by intros ?.
  - apply (preserves_at _), sameHistory_keeps. apply (preserves_modify _). by intros ?.
  - apply (preserves_at _), sameHistory_keeps, sameHistory_onDepthMessage.
  - destruct (requests st !! k) as [request|]; [|reflexivity].
    apply (preserves_at _), sameHistory_keeps.
    apply (preserves_bind _); [apply (preserves_modify _); by intros ?|]. intros _.
    apply sameHistory_resetOrderBook_completed.
  - destruct (timers st !! k) as [timer|]; [|reflexivity].
    apply (preserves_at _), sameHistory_keeps.
    apply (preserves_bind _); [apply (preserves_modify _); by intros ?|]. intros _.
    destruct timer.
    + apply sameHistory_resetOrderBook.
    + apply sameHistory_sendSnapshotToClient.
    + apply sameHistory_commit.
  - apply (preserves_at _), (preserves_forEach _). intros symbol.
    apply (preserves_get_bind _). intros st'.
    destruct (orderBooks st' !! symbol); [apply saveSnapshot_history|reflexivity].
Qed.

Lemma historyUpTo_init symbolList files t : historyUpTo t (init symbolList files).
Proof.
  intros symbol stored H. cbn in H.
  apply elem_of_list_to_map_2, list_elem_of_fmap in H as (s & [= _ ->] & _).
  split; constructor.
Qed.

(** While the clock of the service does not go back, the history in
    memory stays newest first. *)
Lemma historyUpTo_run events t st :
  clockNeverGoesBack events →
  Forall (λ e, t ≤ e.1) events →
  historyUpTo t st →
  ∃ t', historyUpTo t' (exec (run events) st).
Proof.
  unfold exec, run. revert t st.
  induction events as [|[now ev] events IH]; intros t st Hclock Ht H; [by exists t|].
  apply StronglySorted_inv in Hclock as [Hclock Hnow].
  apply Forall_cons in Ht as [Hle _]. simpl in Hle.
  pose proof (dispatch_history now ev st (historyUpTo_mono t now st Hle H)) as Hstep.
  simpl. unfold bind at 1.
  destruct (dispatch now ev st) as [[[]|err] st1]; simpl in *.
  - by apply (IH now).
  - by exists now.
Qed.

Lemma history_newest_first symbolList files events symbol :
  clockNeverGoesBack events →
  newestFirstOrder
    (default [] (historicalData (exec (run events) (init symbolList files)) !! symbol)).
Proof.
  intros Hclock.
  destruct events as [|[now ev] events].
  - destruct (historicalData _ !! symbol) as [stored|] eqn:Hs; [|constructor].
    by apply (historyUpTo_init symbolList files 0 symbol).
  - destruct (historyUpTo_run ((now, ev) :: events) now (init symbolList files))
      as [t' H]; [done| |apply historyUpTo_init|].
    + constructor; [simpl; lia|]. by apply StronglySorted_inv in Hclock as [_ ?].
    + destruct (historicalData _ !! symbol) as [stored|] eqn:Hs; [|constructor].
      by apply (H symbol).
Qed.
End HistoryOrder.

(** ** A subscriber connects *)

Lemma send_ok ws message st w :
  sockets st !! ws = Some w → WS.sendError w = None →
  send ws message st = (Returns tt, set_sockets (insert ws (received message w)) st).
Proof.
  intros Hw He. unfold send, received. rewrite Hw. by destruct (WS.sendError w).
Qed.

Lemma forEach_send_to {B} (l : list B) (f : B → Message) ws w st :
  sockets st !! ws = Some w → WS.sendError w = None →
  ∃ st', forEach l (λ x, send ws (f x)) st = (Returns tt, st') ∧
         sockets st' !! ws =
           Some (WS.mk (WS.symbol w) (WS.connectTime w) (WS.readyState w)
                       (WS.sendError w) (WS.outbox w ++ (f <$> l))) ∧
         timers st' = timers st.
Proof.
  revert st w. induction l as [|x l IH]; intros st w Hw He.
  - exists st. simpl. rewrite app_nil_r. split; [done|]. split; [by destruct w|done].
  - simpl. unfold bind. rewrite (send_ok _ _ _ w Hw He).
    destruct (IH (set_sockets (insert ws (received (f x) w)) st) (received (f x) w))
      as (st' & -> & Hs & Ht).
    + simpl. by rewrite lookup_insert_eq.
    + done.
    + exists st'. split; [done|]. split; [|done].
      rewrite Hs. simpl. by rewrite <- app_assoc.
Qed.

Lemma connection_backfill (st : State) (symbolParam : string) (limitParam : option string)
    (n : nat) (book : Book) (recent : list HistorySnapshot) (now : Z) :
  let symbol := toUpperCase symbolParam in
  let client := fresh (dom (sockets st)) in
  symbol ≠ "" →
  orderBooks st !! symbol = Some book →
  backfillCount limitParam = Some (Z.of_nat n) →
  outcome (getHistoricalData symbol (Z.of_nat n)) st = Returns recent →
  length recent = n →
  ∃ st1,
    dispatch now (connection (Some symbolParam) limitParam) st = (Returns tt, st1) ∧
    sockets st1 !! client =
      Some (WS.mk (Some symbol) now OPEN None
              (historicalMessages n (reverse recent) ++ [historical_complete now])) ∧
    timers st1 = timers st ++ [sendSnapshot client symbol].
Proof.
  intros symbol client Hsym Hbook Hlimit Hrecent Hn.
  unfold dispatch. rewrite bind_get. fold client.
  rewrite !bind_modify. unfold _handleClient. rewrite bind_get.
  cbn [fmap option_fmap option_map default]. unfold id. fold symbol.
  destruct (String.eqb_spec symbol "") as [?|_]; [done|].
  cbn [orb orderBooks set_clients set_sockets].
  rewrite bool_decide_eq_false_2 by (rewrite Hbook; done).
  rewrite bind_modify, Hlimit.
  set (st3 := set_socket client _ _).
  unfold bind at 1.
  destruct (getHistoricalData_frame symbol (Z.of_nat n) st st3 eq_refl eq_refl)
    as (entries & ->).
  rewrite Hrecent.
  set (st3' := set_console _ st3).
  assert (sockets st3' !! client = Some (WS.mk (Some symbol) now OPEN None [])) as Hws.
  { subst st3' st3. cbn. by rewrite lookup_alter_eq, lookup_insert_eq. }
  assert (length (reverse recent) = n) as Hlen by by rewrite length_reverse.
  rewrite Hlen. unfold bind at 1.
  destruct (forEach_send_to
    (imap (λ index snapshot, (index, snapshot)) (reverse recent))
    (λ p, historical (Z.of_nat p.1 + 1) (Z.of_nat n) (content p.2) (timestamp p.2))
    client _ st3' Hws eq_refl) as (st4 & -> & Hws4 & Ht4).
  rewrite fmap_imap in Hws4.
  cbn [WS.symbol WS.connectTime WS.readyState WS.sendError WS.outbox app] in Hws4.
  unfold bind at 1. rewrite (send_ok _ _ _ _ Hws4 eq_refl).
  eexists. split; [reflexivity|]. split.
  - cbn. by rewrite lookup_insert_eq.
  - cbn. rewrite Ht4. done.
Qed.

(** ** Snapshot timers *)

Section Keeps.
Context (allowed : nat → Prop).
Implicit Types (st : State) (symbol : string).

Global Instance keeps_preorder : PreOrder (keeps allowed).
Proof.
  split.
  - intros st. split; [done|]. intros c symbol H. by left.
  - intros st1 st2 st3 [Hs12 Ht12] [Hs23 Ht23]. split.
    + intros c H. by apply Hs23, Hs12.
    + intros c symbol H. destruct (Ht23 _ _ H) as [H2|?]; [|by right].
      by apply Ht12.
Qed.

Lemma keeps_same st st' :
  sockets st' = sockets st → timers st' = timers st → keeps allowed st st'.
Proof. intros Hs Ht. unfold keeps. rewrite Hs, Ht. split; [done|]. intros c s H. by left. Qed.

Lemma keeps_socket_altered st c f : keeps allowed st (set_socket c f st).
Proof.
  split; [|intros c0 s H; by left].
  intros c0 H. unfold set_socket. simpl.
  destruct (decide (c = c0)) as [->|Hne].
  - rewrite lookup_alter_eq. destruct H as [ws ->]. by eexists.
  - by rewrite lookup_alter_ne.
Qed.

Lemma keeps_socket_inserted st c ws : keeps allowed st (set_sockets (insert c ws) st).
Proof.
  split; [|intros c0 s H; by left].
  intros c0 H. simpl. destruct (decide (c = c0)) as [->|Hne].
  - rewrite lookup_insert_eq. by eexists.
  - by rewrite lookup_insert_ne.
Qed.

Lemma keeps_timer_added st t :
  (∀ c symbol, t = sendSnapshot c symbol → allowed c) →
  keeps allowed st (set_timers (λ ts, ts ++ [t]) st).
Proof.
  intros Ht. split; [done|]. intros c s H. simpl in H.
  apply elem_of_app in H as [H|H]; [by left|].
  apply list_elem_of_singleton in H. right. by eapply Ht.
Qed.

Lemma keeps_timer_deleted st k : keeps allowed st (set_timers (delete k) st).
Proof.
  split; [done|]. intros c s H. left. simpl in H.
  by eapply list_elem_of_delete_inv.
Qed.

Lemma keeps_send c message : preserves (keeps allowed) (send c message).
Proof.
  intros st. unfold send.
  destruct (sockets st !! c) as [ws|] eqn:Hws; [|reflexivity].
  destruct (WS.sendError ws); [reflexivity|]. simpl.
  apply keeps_socket_inserted.
Qed.

Lemma keeps_console_write entry : preserves (keeps allowed) (console_write entry).
Proof. apply (preserves_modify _). intros st. by apply keeps_same. Qed.

Ltac step :=
  idtac;
  lazymatch goal with
  | |- preserves _ (console_write _) => apply keeps_console_write
  | |- preserves _ (send _ _) => apply keeps_send
  | |- keeps _ _ _ =>
      first [ by apply keeps_same
            | by apply keeps_socket_altered
            | apply keeps_timer_added; intros ? ?; first [done | by intros [= -> _]] ]
  end.

Lemma keeps_getHistoricalData symbol limit :
  preserves (keeps allowed) (getHistoricalData symbol limit).
Proof. unfold getHistoricalData. walk step. Qed.

Lemma keeps_saveSnapshot symbol now : preserves (keeps allowed) (_saveSnapshot symbol now).
Proof. unfold _saveSnapshot. walk step. Qed.

Lemma keeps_commit symbol now :
  preserves (keeps allowed) (_commitHistoricalDataAsync symbol now).
Proof. unfold _commitHistoricalDataAsync. walk step. Qed.

Lemma keeps_resetOrderBook symbol continuation :
  preserves (keeps allowed) (_resetOrderBook symbol continuation).
Proof. unfold _resetOrderBook. walk step. Qed.

Lemma keeps_broadcastLiveUpdate symbol data now :
  preserves (keeps allowed) (_broadcastLiveUpdate symbol data now).
Proof. unfold _broadcastLiveUpdate. walk step. Qed.

Lemma keeps_broadcastResync symbol now :
  preserves (keeps allowed) (_broadcastResync symbol now).
Proof. unfold _broadcastResync. walk step. Qed.

Lemma keeps_sendSnapshotToClient c symbol now :
  preserves (keeps allowed) (_sendSnapshotToClient c symbol now).
Proof. unfold _sendSnapshotToClient. walk step. Qed.

Lemma keeps_resetOrderBook_completed request data now :
  preserves (keeps allowed) (_resetOrderBook_completed request data now).
Proof. unfold _resetOrderBook_completed. walk step. all: apply keeps_broadcastResync. Qed.

Lemma keeps_onDepthMessage symbol msg now :
  preserves (keeps allowed) (onDepthMessage symbol msg now).
Proof.
  unfold onDepthMessage. walk step.
  all: first [apply keeps_broadcastLiveUpdate | apply keeps_resetOrderBook].
Qed.

Lemma keeps_handleClient ws symbolParam limitParam now :
  allowed ws →
  preserves (keeps allowed) (_handleClient ws symbolParam limitParam now).
Proof.
  intros Hws. unfold _handleClient, ws_close. walk step.
  all: first [apply keeps_getHistoricalData | apply keeps_sendSnapshotToClient].
Qed.

Lemma keeps_knownTimers st st' :
  (∀ c, allowed c → is_Some (sockets st !! c)) →
  knownTimers st → keeps allowed st st' → knownTimers st'.
Proof.
  intros Hallowed Hst [Hs Ht] c symbol H. apply Hs.
  destruct (Ht _ _ H) as [H0|H0]; [by eapply Hst|by apply Hallowed].
Qed.
End Keeps.

Lemma knownTimers_dispatch now ev st :
  knownTimers st → knownTimers (exec (dispatch now ev) st).
Proof.
  intros Hst. unfold exec, dispatch. rewrite bind_get.
  destruct ev as [symbolParam limitParam|c|c err|symbol msg|k data|k|].
  - rewrite bind_modify.
    set (ws := fresh (dom (sockets st))).
    eapply (keeps_knownTimers (λ c, c = ws)); cycle 2.
    + apply (preserves_at _).
      apply (preserves_bind _); [|intros ?; by apply keeps_handleClient].
      apply (preserves_modify _). intros ?. by apply keeps_same.
    + intros c ->. simpl. rewrite lookup_insert_eq. by eexists.
    + eapply (keeps_knownTimers (λ _, False)); [done|exact Hst|].
      apply keeps_socket_inserted.
  - eapply (keeps_knownTimers (λ _, False)); [done|exact Hst|].
    apply (preserves_at _).
    apply (preserves_bind _); [|intros ?]; apply (preserves_modify _); intros ?.
    + apply keeps_socket_altered.
    + by apply keeps_same.
  - eapply (keeps_knownTimers (λ _, False)); [done|exact Hst|].
    apply (preserves_at _), (preserves_modify _). intros ?. apply keeps_socket_altered.
  - eapply (keeps_knownTimers (λ _, False)); [done|exact Hst|].
    apply (preserves_at _), keeps_onDepthMessage.
  - eapply (keeps_knownTimers (λ _, False)); [done|exact Hst|].
    destruct (requests st !! k) as [request|]; [|reflexivity].
    apply (preserves_at _).
    apply (preserves_bind _); [|intros ?; apply keeps_resetOrderBook_completed].
    apply (preserves_modify _). intros ?. by apply keeps_same.
  - eapply (keeps_knownTimers (λ _, False)); [done|exact Hst|].
    destruct (timers st !! k) as [timer|]; [|reflexivity].
    apply (preserves_at _).
    apply (preserves_bind _); [apply (preserves_modify _); intros ?; apply keeps_timer_deleted|].
    intros _. destruct timer.
    + apply keeps_resetOrderBook.
    + apply keeps_sendSnapshotToClient.
    + apply keeps_commit.
  - eapply (keeps_knownTimers (λ _, False)); [done|exact Hst|].
    apply (preserves_at _), (preserves_forEach _). intros symbol.
    apply (preserves_bind _); [apply (preserves_get _)|]. intros st'.
    case_match; [apply keeps_saveSnapshot|apply (preserves_ret _)].
Qed.

Lemma knownTimers_run events st :
  knownTimers st → knownTimers (exec (run events) st).
Proof.
  unfold exec, run. revert st.
  induction events as [|[now ev] events IH]; intros st Hst; [done|].
  simpl. unfold bind at 1.
  pose proof (knownTimers_dispatch now ev st Hst) as Hstep. unfold exec in Hstep.
  destruct (dispatch now ev st) as [[[]|err] st1]; simpl in *; [by apply IH|done].
Qed.

Lemma knownTimers_init symbolList files : knownTimers (init symbolList files).
Proof. intros c symbol H. simpl in H. by apply elem_of_nil in H. Qed.

(** The next socket to be accepted has no snapshot timer pending. *)
Lemma fresh_socket_no_timer st :
  knownTimers st → pendingSnapshots (fresh (dom (sockets st))) st = 0%nat.
Proof.
  intros Hst. unfold pendingSnapshots.
  destruct (List.filter _ _) as [|t ts] eqn:Hf; [done|].
  assert (t ∈ List.filter (snapshotTimerFor (fresh (dom (sockets st)))) (timers st)) as Ht
    by (rewrite Hf; left).
  apply list_elem_of_In, List.filter_In in Ht as [Ht Hc]. apply list_elem_of_In in Ht.
  destruct t as [|c symbol|]; simpl in Hc; try done.
  apply Nat.eqb_eq in Hc as ->. apply Hst, elem_of_dom in Ht.
  by apply is_fresh in Ht.
Qed.

(** ** Backfill, then live *)

(** When the snapshot timer of a socket fires while the socket is open
    and can send, the current book is sent to it. *)
Lemma snapshot_timer_delivers st k client symbol current ws now :
  timers st !! k = Some (sendSnapshot client symbol) →
  orderBooks st !! symbol = Some current →
  sockets st !! client = Some ws →
  WS.readyState ws = OPEN → WS.sendError ws = None →
  outboxOf (exec (dispatch now (timeout k)) st) client =
    outboxOf st client ++ [live_snapshot current now].
Proof.
  intros Hk Hbook Hws Hopen Hsend. unfold exec, dispatch.
  rewrite bind_get, Hk, bind_modify. unfold _sendSnapshotToClient.
  rewrite bind_get. cbn [orderBooks sockets set_timers]. rewrite Hbook, Hws.
  rewrite bool_decide_eq_true_2 by done. unfold try_catch.
  rewrite (send_ok client _ _ ws) by done.
  unfold outboxOf. cbn. by rewrite lookup_insert_eq, Hws.
Qed.

(** Claim C6, amended.  Take a state in which every pending snapshot
    timer belongs to an accepted socket (every state the service reaches,
    [knownTimers_run]), and a subscriber that connects with
    [limit = n > 0] to a tracked symbol for which the history getter
    finds [n] snapshots.  During the connection the subscriber is sent
    these [n] snapshots as [historical] messages, in the reverse of the
    getter's order, which is oldest first when the history in memory is
    newest first, numbered [1..n] of [n], and then one
    [historical_complete]; and a timer is set for its [live_snapshot].
    Whatever happens afterwards, all the subscriber gets after the
    backfill are [live_snapshot], [depth_update] and [resync] messages,
    at most one of them a [live_snapshot]; it need not be the first.  It
    is sent when the timer fires, if the socket is then open and can
    send. *)
Theorem backfill_then_live (st : State) (symbolParam : string) (limitParam : option string)
    (n : nat) (book : Book) (recent : list HistorySnapshot) (now : Z) :
  let symbol := toUpperCase symbolParam in
  let client := fresh (dom (sockets st)) in
  knownTimers st →
  symbol ≠ "" →
  orderBooks st !! symbol = Some book →
  backfillCount limitParam = Some (Z.of_nat n) →
  outcome (getHistoricalData symbol (Z.of_nat n)) st = Returns recent →
  length recent = n →
  let st1 := exec (dispatch now (connection (Some symbolParam) limitParam)) st in
  let backfill := historicalMessages n (reverse recent) ++ [historical_complete now] in
  outboxOf st1 client = backfill ∧
  (newestFirstOrder (default [] (historicalData st !! symbol)) →
   oldestFirstOrder (reverse recent)) ∧
  timers st1 = timers st ++ [sendSnapshot client symbol] ∧
  (∀ events, ∃ rest,
     outboxOf (exec (run events) st1) client = backfill ++ rest ∧
     Forall (λ m, isLive m = true) rest ∧
     (length (List.filter isLiveSnapshot rest) ≤ 1)%nat) ∧
  (∀ events k current ws later,
     let st2 := exec (run events) st1 in
     timers st2 !! k = Some (sendSnapshot client symbol) →
     orderBooks st2 !! symbol = Some current →
     sockets st2 !! client = Some ws →
     WS.readyState ws = OPEN → WS.sendError ws = None →
     outboxOf (exec (dispatch later (timeout k)) st2) client =
       outboxOf st2 client ++ [live_snapshot current later]).
Proof.
  intros symbol client Hknown Hsym Hbook Hlimit Hrecent Hn st1 backfill.
  assert (pendingSnapshots client st = 0%nat) as Hpending
    by by apply fresh_socket_no_timer.
  destruct (connection_backfill st symbolParam limitParam n book recent now
              Hsym Hbook Hlimit Hrecent Hn) as (st1' & Hrun & Hws & Htimers).
  assert (st1 = st1') as -> by (subst st1; unfold exec; by rewrite Hrun).
  fold symbol client in Hws, Htimers. fold backfill in Hws.
  assert (outboxOf st1' client = backfill) as Hout by (unfold outboxOf; by rewrite Hws).
  split; [done|]. split.
  { intros Hmemory.
    destruct (getHistoricalData_returns symbol (Z.of_nat n) st) as (result & Hr & _ & Hs).
    rewrite Hrecent in Hr. injection Hr as <-.
    apply (StronglySorted_reverse _ recent). by apply Hs. }
  split; [done|]. split.
  - intros events.
    destruct (preserves_run client events st1') as (_ & rest & Hrest & Hlive & Hcount).
    { by rewrite Hws. }
    exists rest. rewrite <- Hout. split; [done|]. split; [done|].
    assert (pendingSnapshots client st1' = 1%nat) as Hone.
    { unfold pendingSnapshots in *. rewrite Htimers, List.filter_app, length_app, Hpending.
      simpl. by rewrite Nat.eqb_refl. }
    unfold exec. lia.
  - intros events k current ws later st2. by apply snapshot_timer_delivers.
Qed.

(** Claim C6, amended, on a subscriber asking for three snapshots of the
    recorded history. *)
Lemma backfill_then_live_witness :
  let recent :=
    match outcome (getHistoricalData (toUpperCase "btcusdt") (Z.of_nat 3)) recorded with
    | Returns result => result
    | Throws _ => []
    end in
  let st1 := exec (dispatch 92000 (connection (Some "btcusdt") (Some "3"))) recorded in
  knownTimers recorded ∧
  toUpperCase "btcusdt" ≠ "" ∧
  orderBooks recorded !! toUpperCase "btcusdt" = Some book100 ∧
  backfillCount (Some "3") = Some (Z.of_nat 3) ∧
  outcome (getHistoricalData (toUpperCase "btcusdt") (Z.of_nat 3)) recorded = Returns recent ∧
  length recent = 3%nat ∧
  outboxOf st1 (fresh (dom (sockets recorded))) =
    historicalMessages 3 (reverse recent) ++ [historical_complete 92000] ∧
  timers st1 =
    timers recorded ++ [sendSnapshot (fresh (dom (sockets recorded))) (toUpperCase "btcusdt")].
Proof.
  intros recent st1.
  assert (knownTimers recorded) as H0 by apply knownTimers_run, knownTimers_init.
  assert (toUpperCase "btcusdt" ≠ "") as H1 by (vm_compute; discriminate).
  assert (orderBooks recorded !! toUpperCase "btcusdt" = Some book100) as H2
    by (vm_compute; reflexivity).
  assert (backfillCount (Some "3") = Some (Z.of_nat 3)) as H3 by (vm_compute; reflexivity).
  assert (outcome (getHistoricalData (toUpperCase "btcusdt") (Z.of_nat 3)) recorded =
          Returns recent) as H4 by (vm_compute; reflexivity).
  assert (length recent = 3%nat) as H5 by (vm_compute; reflexivity).
  repeat (split; [assumption|]).
  destruct (backfill_then_live recorded "btcusdt" (Some "3") 3 book100 recent
              92000 H0 H1 H2 H3 H4 H5) as (Hout & _ & Htimers & _).
  split; [exact Hout|exact Htimers].
Defined.

(** Claim C6 fails as stated: a delta that arrives before the snapshot
    timer fires reaches the subscriber between [historical_complete] and
    [live_snapshot]. *)
Lemma depth_update_before_live_snapshot :
  messageType <$> outboxOf backfillRun 0 =
    ["historical"; "historical"; "historical"; "historical_complete";
     "depth_update"; "live_snapshot"] ∧
  ¬ ∃ backfill ts snapshot ts' live,
      outboxOf backfillRun 0 =
        backfill ++ [historical_complete ts; live_snapshot snapshot ts'] ++ live.
Proof.
  split; [by vm_compute|].
  intros (backfill & ts & snapshot & ts' & live & H).
  apply (f_equal (fmap messageType)) in H. rewrite fmap_app in H.
  set (types := messageType <$> outboxOf backfillRun 0) in H.
  vm_compute in types. subst types.
  repeat (destruct backfill as [|? backfill]; simpl in H;
          [discriminate H|injection H as _ H]).
  destruct backfill; discriminate H.
Qed.

End COBFacts.

(** * The kline concentrator *)

Module WSCFacts.
Import JS Handler WebSocket BinanceWSC.
Import WSCProperties WSCProperties.Scenario JSFacts HandlerFacts.

Section JSONFacts.
Implicit Types (fields : list (string * JSON)) (key : string).




End JSONFacts.

Section Concentrator.
Implicit Types (st : State) (message sent : JSON) (sock : Socket.t).





End Concentrator.

Section ConcentratorBroadcast.
Implicit Types (st : State) (message sent : JSON) (sock : Socket.t).



End ConcentratorBroadcast.

Section ConcentratorConnection.
Implicit Types (st : State) (message sent : JSON) (sock : Socket.t).


End ConcentratorConnection.



(** What the two clients of the scenario hold after one broadcast. *)
Lemma masquerade_example :
  let st := exec (broadcastToClientsForSymbol "XRPUSDT" (JObject kline)) twoClients in
  let renamed :=
    JObject [("e", JString "kline"); ("s", JString "XRPLUSD");
             ("k", JObject [("s", JString "XRPLUSD"); ("i", JString "1m");
                            ("c", JString "0.5213")])] in
  Socket.outbox <$> sockets st !! 0%nat = Some [renamed; renamed] ∧
  Socket.outbox <$> sockets st !! 1%nat = Some [JObject kline].
Proof. split; vm_compute; reflexivity. Qed.

End WSCFacts.
